(** * The project page's image carousel and full-screen viewer

    A shallow embedding of the stateful part of [src/pages/ProjectPage.tsx]:
    the three [useState] cells, the event handlers that update them, and the
    part of the rendered tree that reads them (the inline carousel and the
    props handed to [ImageViewer]).

    Event handlers are computations in a state-and-exception monad over the
    component state: a [set...] call of React is a write to the state, a
    functional updater reads the latest state, and a property access on
    [undefined] raises [TypeError].  A handler is a closure created by one
    render, so values it reads from the component scope ([touchStartX],
    [currentImageIndex]) come from the rendered state [r], which is a
    separate argument. *)

From Stdlib Require Import ZArith List String Ascii Bool Lia.
From ExtLib Require Import Structures.Monad Structures.MonadState Structures.MonadExc.
From ExtLib Require Import Data.Monads.StateMonad Data.Monads.EitherMonad.
Import ListNotations.
Import MonadNotation.
Local Open Scope monad_scope.
Local Open Scope Z_scope.

#[local] Existing Instance Monad_stateT.

(** ** Data *)

(** The only fault the handlers can raise: reading a property of
    [undefined]. *)
Inductive JsError : Type :=
| TypeError.

(** A touch point; only the horizontal coordinate is consumed.  Coordinates
    are whole CSS pixels. *)
Record Touch : Type := mkTouch { clientX : Z }.

Record TouchEvent : Type := mkTouchEvent {
  touches : list Touch;
  changedTouches : list Touch
}.

(** Modelled from the spec: the project record type is declared in
    [data/projectsData], which is not part of the sources at hand.  The
    image set is "an ordered, immutable sequence of image references, length
    N >= 0"; the page reads only [name] and [screenshots] for the carousel. *)
Record Project : Type := mkProject {
  name : string;
  screenshots : list string
}.

(** The three state cells of the component, in declaration order. *)
Record State : Type := mkState {
  showImageViewer : bool;
  currentImageIndex : Z;
  touchStartX : option Z
}.

(** [useState(false)], [useState(0)], [useState<number | null>(null)]. *)
Definition initialState : State :=
  {| showImageViewer := false; currentImageIndex := 0; touchStartX := None |}.

(** [a.length] *)
Definition length_ {A : Type} (a : list A) : Z := Z.of_nat (List.length a).

(** [a[i]] for an integral [i]: [undefined] outside the array. *)
Definition index_ {A : Type} (a : list A) (i : Z) : option A :=
  if i <? 0 then None else nth_error a (Z.to_nat i).

(** ** The handler monad *)

Definition Handler : Type -> Type := stateT State (sum JsError).

(** Runs a handler on the live state; the outcome is the state of the next
    render, or the fault. *)
Definition exec (h : Handler unit) (s : State) : JsError + State :=
  match runStateT h s with
  | inl err => inl err
  | inr (_, s') => inr s'
  end.

Definition setShowImageViewer (b : bool) : Handler unit :=
  s <- get ;;
  put {| showImageViewer := b;
         currentImageIndex := currentImageIndex s;
         touchStartX := touchStartX s |}.

Definition setCurrentImageIndex (i : Z) : Handler unit :=
  s <- get ;;
  put {| showImageViewer := showImageViewer s;
         currentImageIndex := i;
         touchStartX := touchStartX s |}.

(** [setCurrentImageIndex((prevIndex) => ...)]: the updater form. *)
Definition setCurrentImageIndex_with (f : Z -> Z) : Handler unit :=
  s <- get ;;
  put {| showImageViewer := showImageViewer s;
         currentImageIndex := f (currentImageIndex s);
         touchStartX := touchStartX s |}.

Definition setTouchStartX (x : option Z) : Handler unit :=
  s <- get ;;
  put {| showImageViewer := showImageViewer s;
         currentImageIndex := currentImageIndex s;
         touchStartX := x |}.

(** [l[0].clientX] *)
Definition firstClientX (l : list Touch) : Handler Z :=
  match l with
  | t :: _ => ret (clientX t)
  | [] => raise TypeError
  end.

(** ** Handlers *)

Section ProjectPage.

(** [projects.find(...)]: the project of the route, if any. *)
Variable project : option Project.

(** The updater of [handleNextImage].  The index is an integral number;
    [prevIndex + 1] is the exact sum as long as [prevIndex] is a safe
    integer, which every index in [0, N-1] is; properties about an index
    outside that range assume it. *)
Definition nextImageIndex (p : Project) (prevIndex : Z) : Z :=
  if prevIndex =? length_ (screenshots p) - 1 then 0 else prevIndex + 1.

(** The updater of [handlePrevImage]; [prevIndex - 1] is the exact
    difference on the safe integers, as for [nextImageIndex]. *)
Definition prevImageIndex (p : Project) (prevIndex : Z) : Z :=
  if prevIndex =? 0 then length_ (screenshots p) - 1 else prevIndex - 1.

Definition handleNextImage : Handler unit :=
  match project with
  | Some p => setCurrentImageIndex_with (nextImageIndex p)
  | None => ret tt
  end.

Definition handlePrevImage : Handler unit :=
  match project with
  | Some p => setCurrentImageIndex_with (prevImageIndex p)
  | None => ret tt
  end.

Definition handleKeyDown (key : string) : Handler unit :=
  if String.eqb key "ArrowLeft" then handlePrevImage
  else if String.eqb key "ArrowRight" then handleNextImage
  else ret tt.

Definition handleTouchStart (e : TouchEvent) : Handler unit :=
  x <- firstClientX (touches e) ;;
  setTouchStartX (Some x).

(** [touchStartX] is read from the render [r] that created the closure. *)
Definition handleTouchEnd (r : State) (e : TouchEvent) : Handler unit :=
  match touchStartX r with
  | Some startX =>
      touchEnd <- firstClientX (changedTouches e) ;;
      let swipeDistance := startX - touchEnd in
      if swipeDistance >? 50 then handleNextImage
      else if swipeDistance <? -50 then handlePrevImage
      else ret tt
  | None => ret tt
  end ;;
  setTouchStartX None.

Definition handleOpenImageViewer (index : Z) : Handler unit :=
  setCurrentImageIndex index ;;
  setShowImageViewer true.

Definition handleCloseImageViewer : Handler unit :=
  setShowImageViewer false.

(** ** The rendered tree

    Only the elements that read the state or carry a handler are kept. *)

(** One button of [carousel-indicators]. *)
Record Indicator : Type := mkIndicator {
  indicatorKey : Z;
  indicatorOnClick : Handler unit;
  indicatorActive : bool
}.

(** The screenshots carousel: the current screenshot, the two navigation
    buttons and the indicators. *)
Record Carousel : Type := mkCarousel {
  imgSrc : option string;
  imgOnClick : Handler unit;
  prevOnClick : Handler unit;
  nextOnClick : Handler unit;
  indicators : list Indicator
}.

(** The props of [<ImageViewer ... />]. *)
Record ImageViewerProps : Type := mkImageViewerProps {
  show : bool;
  images : list string;
  currentIndex : Z;
  onClose : Handler unit;
  onNext : Handler unit;
  onPrev : Handler unit
}.

Inductive View : Type :=
| ProjectNotFound
| ProjectView (onTouchStart onTouchEnd : TouchEvent -> Handler unit)
              (carousel : option Carousel)
              (imageViewer : option ImageViewerProps).

(** The indices [Array.prototype.map] passes to its callback. *)
Definition indices {A : Type} (a : list A) : list Z :=
  map Z.of_nat (seq 0 (List.length a)).

Definition renderCarousel (p : Project) (r : State) : option Carousel :=
  if length_ (screenshots p) >? 0 then
    Some {| imgSrc := index_ (screenshots p) (currentImageIndex r);
            imgOnClick := handleOpenImageViewer (currentImageIndex r);
            prevOnClick := handlePrevImage;
            nextOnClick := handleNextImage;
            indicators :=
              map (fun index =>
                     {| indicatorKey := index;
                        indicatorOnClick := setCurrentImageIndex index;
                        indicatorActive := index =? currentImageIndex r |})
                  (indices (screenshots p)) |}
  else None.

(** [project.screenshots && <ImageViewer ... />]: an array is truthy even
    when it is empty. *)
Definition renderImageViewer (p : Project) (r : State)
  : option ImageViewerProps :=
  Some {| show := showImageViewer r;
          images := screenshots p;
          currentIndex := currentImageIndex r;
          onClose := handleCloseImageViewer;
          onNext := handleNextImage;
          onPrev := handlePrevImage |}.

Definition render (r : State) : View :=
  match project with
  | None => ProjectNotFound
  | Some p =>
      ProjectView handleTouchStart (handleTouchEnd r)
                  (renderCarousel p r) (renderImageViewer p r)
  end.

(** ** Events *)

Inductive Event : Type :=
| KeyDown (key : string)
| TouchStart (e : TouchEvent)
| TouchEnd (e : TouchEvent)
| ClickImage
| ClickPrev
| ClickNext
| ClickIndicator (position : nat)
| ViewerClose
| ViewerNext
| ViewerPrev.

Definition carouselOf (v : View) : option Carousel :=
  match v with
  | ProjectView _ _ c _ => c
  | ProjectNotFound => None
  end.

Definition imageViewerOf (v : View) : option ImageViewerProps :=
  match v with
  | ProjectView _ _ _ iv => iv
  | ProjectNotFound => None
  end.

(** The listener an event reaches in the tree [v].  The key listener is
    registered on [window] by an effect that runs before the early return,
    so it is there whatever is rendered; the others exist only when their
    element does. *)
Definition listener (v : View) (ev : Event) : option (Handler unit) :=
  match ev with
  | KeyDown key => Some (handleKeyDown key)
  | TouchStart e =>
      match v with
      | ProjectView onTouchStart _ _ _ => Some (onTouchStart e)
      | ProjectNotFound => None
      end
  | TouchEnd e =>
      match v with
      | ProjectView _ onTouchEnd _ _ => Some (onTouchEnd e)
      | ProjectNotFound => None
      end
  | ClickImage => option_map imgOnClick (carouselOf v)
  | ClickPrev => option_map prevOnClick (carouselOf v)
  | ClickNext => option_map nextOnClick (carouselOf v)
  | ClickIndicator position =>
      match carouselOf v with
      | Some c => option_map indicatorOnClick (nth_error (indicators c) position)
      | None => None
      end
  | ViewerClose => option_map onClose (imageViewerOf v)
  | ViewerNext => option_map onNext (imageViewerOf v)
  | ViewerPrev => option_map onPrev (imageViewerOf v)
  end.

(** One turn of the event loop: the event runs the listener of the tree
    rendered from [s], on [s]; an event no listener receives changes
    nothing. *)
Definition dispatch (s : State) (ev : Event) : JsError + State :=
  match listener (render s) ev with
  | Some h => exec h s
  | None => inr s
  end.

End ProjectPage.

(** [n] turns of the same handler, stopping at the first fault. *)
Fixpoint repeat_exec (n : nat) (h : Handler unit) (s : State) : JsError + State :=
  match n with
  | O => inr s
  | S n' =>
      match exec h s with
      | inl err => inl err
      | inr s' => repeat_exec n' h s'
      end
  end.

(** [currentImageIndex] is an index into an array of length [n]. *)
Definition validIndex (n : Z) (s : State) : Prop :=
  0 <= currentImageIndex s <= n - 1.


(** ** Auxiliary definitions *)

(** [Number.MAX_SAFE_INTEGER], 2^53 - 1: up to it, in absolute value, the
    numbers of the program are the integers and [+ 1] and [- 1] are exact. *)
Definition MAX_SAFE_INTEGER : Z := 9007199254740991.

(** [Number.isSafeInteger], on an integral number. *)
Definition isSafeInteger (i : Z) : Prop :=
  - MAX_SAFE_INTEGER <= i <= MAX_SAFE_INTEGER.

(** The state with one cell replaced, as the setters leave it. *)
Definition withIndex (s : State) (i : Z) : State :=
  {| showImageViewer := showImageViewer s;
     currentImageIndex := i;
     touchStartX := touchStartX s |}.

Definition withShow (s : State) (b : bool) : State :=
  {| showImageViewer := b;
     currentImageIndex := currentImageIndex s;
     touchStartX := touchStartX s |}.

Definition withTouch (s : State) (x : option Z) : State :=
  {| showImageViewer := showImageViewer s;
     currentImageIndex := currentImageIndex s;
     touchStartX := x |}.

(** The image reference the inline carousel shows: the [src] of its
    [<img>], when the carousel is rendered. *)
Definition inlineImage (p : Project) (s : State) : option string :=
  match renderCarousel (Some p) p s with
  | Some c => imgSrc c
  | None => None
  end.

(** The image reference the props of [ImageViewer] designate:
    [images[currentIndex]].  The component itself is outside the sources at
    hand; what it is given is all that is stated about it. *)
Definition viewerImage (p : Project) (s : State) : option string :=
  match renderImageViewer (Some p) p s with
  | Some props => index_ (images props) (currentIndex props)
  | None => None
  end.

(** The outcomes of a navigation request: nothing, one step forward or one
    step back. *)
Inductive navigated (project : option Project) (s : State) : State -> Prop :=
| nav_stay : navigated project s s
| nav_next p :
    project = Some p ->
    navigated project s (withIndex s (nextImageIndex p (currentImageIndex s)))
| nav_prev p :
    project = Some p ->
    navigated project s (withIndex s (prevImageIndex p (currentImageIndex s))).

(** ** Projects and states used as concrete inputs *)

Definition galleryOf3 : Project :=
  {| name := "Gallery"; screenshots := ["a.png"; "b.png"; "c.png"]%string |}.

Definition galleryOf4 : Project :=
  {| name := "Gallery"; screenshots := ["a.png"; "b.png"; "c.png"; "d.png"]%string |}.

Definition emptyGallery : Project :=
  {| name := "Empty"; screenshots := [] |}.

Definition atIndex (i : Z) : State :=
  {| showImageViewer := false; currentImageIndex := i; touchStartX := None |}.

Definition tracking (startX : Z) : State :=
  {| showImageViewer := false; currentImageIndex := 0; touchStartX := Some startX |}.

Definition touchEndAt (endX : Z) : TouchEvent :=
  {| touches := []; changedTouches := [{| clientX := endX |}] |}.

(** ** The event loop *)

(** The events of [evs] in turn, each on the state the previous one left;
    a fault ends the run. *)
Fixpoint run_events (project : option Project) (evs : list Event) (s : State)
  : JsError + State :=
  match evs with
  | [] => inr s
  | ev :: rest =>
      match dispatch project s ev with
      | inl err => inl err
      | inr s' => run_events project rest s'
      end
  end.

(** Touch events as the browser delivers them: a touch start lists at least
    one touch, a touch end at least one changed touch. *)
Definition wellFormed (ev : Event) : bool :=
  match ev with
  | TouchStart e => match touches e with [] => false | _ :: _ => true end
  | TouchEnd e => match changedTouches e with [] => false | _ :: _ => true end
  | _ => true
  end.

(** ** The project of the route

    [projects.find((proj) =>
       proj.name.toLowerCase().replace(/\s+/g, "-") === projectId)].
    A string is a sequence of code units below 256, one [ascii] each. *)

(** The code units below 256 that [\s] matches: tab, line feed, vertical
    tab, form feed, carriage return, space and no-break space. *)
Definition isWhiteSpace (c : ascii) : bool :=
  let n := N_of_ascii c in
  ((9 <=? n) && (n <=? 13) || (n =? 32) || (n =? 160))%N.

(** The code units below 256 that [toLowerCase] changes: A-Z, and the
    capital letters from 192 to 222 but for the multiplication sign. *)
Definition isUpperCase (c : ascii) : bool :=
  let n := N_of_ascii c in
  ((65 <=? n) && (n <=? 90)
   || (192 <=? n) && (n <=? 222) && negb (n =? 215))%N.

Definition toLowerCaseChar (c : ascii) : ascii :=
  if isUpperCase c then ascii_of_N (N_of_ascii c + 32) else c.

Fixpoint toLowerCase (s : string) : string :=
  match s with
  | EmptyString => EmptyString
  | String c rest => String (toLowerCaseChar c) (toLowerCase rest)
  end.

(** [s.replace(/\s+/g, "-")]: every maximal run of white space becomes one
    hyphen.  [inRun] tells that the previous character was white space, so
    the hyphen of this run is already out. *)
Fixpoint replaceWhiteSpace (inRun : bool) (s : string) : string :=
  match s with
  | EmptyString => EmptyString
  | String c rest =>
      if isWhiteSpace c then
        if inRun then replaceWhiteSpace true rest
        else String "-" (replaceWhiteSpace true rest)
      else String c (replaceWhiteSpace false rest)
  end.

(** [name.toLowerCase().replace(/\s+/g, "-")] *)
Definition slug (name : string) : string :=
  replaceWhiteSpace false (toLowerCase name).

(** [projectId] is [undefined] when the route has no such parameter; the
    strict comparison with a string is then false. *)
Definition findProject (projects : list Project) (projectId : option string)
  : option Project :=
  find (fun proj =>
          match projectId with
          | Some id => String.eqb (slug (name proj)) id
          | None => false
          end)
       projects.

(** Some character of [s] satisfies [f]. *)
Fixpoint existsChar (f : ascii -> bool) (s : string) : bool :=
  match s with
  | EmptyString => false
  | String c rest => f c || existsChar f rest
  end.

(** ** The navigation bar ([src/components/Navbar.tsx]) *)

Module Navbar.

(** The one state cell, [isMenuOpen]; [useState(false)]. *)
Definition State : Type := bool.

Definition initialState : State := false.

Definition Handler : Type -> Type := state State.

Definition setIsMenuOpen (b : bool) : Handler unit := put b.

(** [setIsMenuOpen(!isMenuOpen)], with [isMenuOpen] of the render [r] that
    created the closure. *)
Definition toggleMenu (r : State) : Handler unit := setIsMenuOpen (negb r).

(** The four links of the menu. *)
Inductive Route : Type :=
| Home
| About
| Projects
| Contact.

Inductive Icon : Type :=
| FaTimes
| FaBars.

(** What the render reads from the state: the hamburger button (its class,
    handler and icon), the position class of the menu, and the link
    handler. *)
Record View : Type := mkView {
  hamburgerOpen : bool;
  hamburgerOnClick : Handler unit;
  hamburgerIcon : Icon;
  menuPosition : string;
  linkOnClick : Route -> Handler unit
}.

Definition render (r : State) : View :=
  {| hamburgerOpen := r;
     hamburgerOnClick := toggleMenu r;
     hamburgerIcon := if r then FaTimes else FaBars;
     menuPosition := if r then "translate-x-0" else "translate-x-full";
     linkOnClick := fun _ => setIsMenuOpen false |}.

Inductive Event : Type :=
| ClickHamburger
| ClickLink (to : Route).

Definition dispatch (s : State) (ev : Event) : State :=
  match ev with
  | ClickHamburger => execState (hamburgerOnClick (render s)) s
  | ClickLink to => execState (linkOnClick (render s) to) s
  end.

Definition run_events (evs : list Event) (s : State) : State :=
  fold_left dispatch evs s.

End Navbar.

(** * Properties *)

(** ** What one handler does to the state *)

Lemma withIndex_same s : withIndex s (currentImageIndex s) = s.
Proof. destruct s; reflexivity. Qed.

Lemma withShow_same s : withShow s (showImageViewer s) = s.
Proof. destruct s; reflexivity. Qed.

Lemma withTouch_same s : withTouch s (touchStartX s) = s.
Proof. destruct s; reflexivity. Qed.

Lemma exec_setCurrentImageIndex i s :
  exec (setCurrentImageIndex i) s = inr (withIndex s i).
Proof. reflexivity. Qed.

Lemma exec_setShowImageViewer b s :
  exec (setShowImageViewer b) s = inr (withShow s b).
Proof. reflexivity. Qed.

Lemma exec_setTouchStartX x s :
  exec (setTouchStartX x) s = inr (withTouch s x).
Proof. reflexivity. Qed.

Lemma exec_handleNextImage p s :
  exec (handleNextImage (Some p)) s
  = inr (withIndex s (nextImageIndex p (currentImageIndex s))).
Proof. reflexivity. Qed.

Lemma exec_handlePrevImage p s :
  exec (handlePrevImage (Some p)) s
  = inr (withIndex s (prevImageIndex p (currentImageIndex s))).
Proof. reflexivity. Qed.

Lemma exec_handleNextImage_none s : exec (handleNextImage None) s = inr s.
Proof. reflexivity. Qed.

Lemma exec_handlePrevImage_none s : exec (handlePrevImage None) s = inr s.
Proof. reflexivity. Qed.

Lemma exec_handleOpenImageViewer i s :
  exec (handleOpenImageViewer i) s = inr (withShow (withIndex s i) true).
Proof. reflexivity. Qed.

Lemma exec_handleCloseImageViewer s :
  exec handleCloseImageViewer s = inr (withShow s false).
Proof. reflexivity. Qed.

(** Sequencing runs the second handler on what the first one left. *)
Lemma exec_seq (h k : Handler unit) s :
  exec (h ;; k) s
  = match exec h s with
    | inl err => inl err
    | inr s' => exec k s'
    end.
Proof.
  unfold exec. simpl.
  destruct (runStateT h s) as [err | [u s']]; reflexivity.
Qed.

(** ** Index arithmetic *)

Section Updaters.

Variable p : Project.
Let n := length_ (screenshots p).

Lemma nextImageIndex_mod i :
  0 <= i <= n - 1 -> nextImageIndex p i = (i + 1) mod n.
Proof.
  intros Hi. unfold nextImageIndex. fold n.
  destruct (Z.eqb_spec i (n - 1)) as [-> | Hne].
  - replace (n - 1 + 1) with n by lia. now rewrite Z.mod_same by lia.
  - rewrite Z.mod_small by lia. reflexivity.
Qed.

Lemma prevImageIndex_mod i :
  0 <= i <= n - 1 -> prevImageIndex p i = (i - 1 + n) mod n.
Proof.
  intros Hi. unfold prevImageIndex. fold n.
  destruct (Z.eqb_spec i 0) as [-> | Hne].
  - rewrite Z.mod_small by lia. lia.
  - replace (i - 1 + n) with (i - 1 + 1 * n) by lia.
    rewrite Z.mod_add by lia. rewrite Z.mod_small by lia. reflexivity.
Qed.

Lemma nextImageIndex_range i :
  0 <= i <= n - 1 -> 0 <= nextImageIndex p i <= n - 1.
Proof.
  intros Hi. unfold nextImageIndex. fold n.
  destruct (Z.eqb_spec i (n - 1)); lia.
Qed.

Lemma prevImageIndex_range i :
  0 <= i <= n - 1 -> 0 <= prevImageIndex p i <= n - 1.
Proof.
  intros Hi. unfold prevImageIndex. fold n.
  destruct (Z.eqb_spec i 0); lia.
Qed.

Lemma prev_next_index i :
  0 <= i <= n - 1 -> prevImageIndex p (nextImageIndex p i) = i.
Proof.
  intros Hi. unfold prevImageIndex, nextImageIndex. fold n.
  destruct (Z.eqb_spec i (n - 1)) as [-> | Hne]; simpl.
  - lia.
  - destruct (Z.eqb_spec (i + 1) 0); lia.
Qed.

(** [k] presses of "next" move a valid index [k] places round the cycle. *)
Lemma repeat_next k : forall s,
  validIndex n s ->
  repeat_exec k (handleNextImage (Some p)) s
  = inr (withIndex s ((currentImageIndex s + Z.of_nat k) mod n)).
Proof.
  induction k as [| k IH]; intros s Hs; unfold validIndex in Hs.
  - simpl. rewrite Z.add_0_r, Z.mod_small by lia.
    now rewrite withIndex_same.
  - cbn [repeat_exec]. rewrite exec_handleNextImage.
    rewrite IH by (apply nextImageIndex_range; exact Hs).
    rewrite nextImageIndex_mod by exact Hs.
    unfold withIndex; simpl. do 2 f_equal.
    rewrite Zplus_mod_idemp_l. f_equal. lia.
Qed.

End Updaters.

(** ** Navigation round the cycle *)

(** C3: with N > 0 images and the current index in [0, N-1], N presses of
    "next" bring the state back to where it started, and no smaller positive
    number of presses does: the cycle has period N. *)
Theorem next_N_times_returns (p : Project) (s : State) :
  0 < length_ (screenshots p) ->
  validIndex (length_ (screenshots p)) s ->
  repeat_exec (List.length (screenshots p)) (handleNextImage (Some p)) s = inr s
  /\ forall k : nat,
       (0 < k < List.length (screenshots p))%nat ->
       repeat_exec k (handleNextImage (Some p)) s <> inr s.
Proof.
  intros Hn Hs. pose proof Hs as Hi. unfold validIndex in Hi. split.
  - rewrite repeat_next by exact Hs. fold (length_ (screenshots p)).
    replace (currentImageIndex s + length_ (screenshots p))
      with (currentImageIndex s + 1 * length_ (screenshots p)) by lia.
    rewrite Z.mod_add by lia. rewrite Z.mod_small by lia.
    now rewrite withIndex_same.
  - intros k Hk. rewrite repeat_next by exact Hs. intros Heq.
    assert (Hidx : (currentImageIndex s + Z.of_nat k) mod length_ (screenshots p)
                   = currentImageIndex s).
    { injection Heq as Heq. apply (f_equal currentImageIndex) in Heq. exact Heq. }
    unfold length_ in *.
    destruct (Z_lt_dec (currentImageIndex s + Z.of_nat k)
                       (Z.of_nat (List.length (screenshots p)))) as [Hlt | Hge].
    + rewrite Z.mod_small in Hidx by lia. lia.
    + replace (currentImageIndex s + Z.of_nat k)
        with (currentImageIndex s + Z.of_nat k
              - Z.of_nat (List.length (screenshots p))
              + 1 * Z.of_nat (List.length (screenshots p))) in Hidx by lia.
      rewrite Z.mod_add in Hidx by lia.
      rewrite Z.mod_small in Hidx by lia. lia.
Qed.

Lemma next_N_times_returns_witness :
  repeat_exec 3 (handleNextImage (Some galleryOf3)) (atIndex 1) = inr (atIndex 1)
  /\ forall k : nat,
       (0 < k < 3)%nat ->
       repeat_exec k (handleNextImage (Some galleryOf3)) (atIndex 1) <> inr (atIndex 1).
Proof.
  apply (next_N_times_returns galleryOf3 (atIndex 1)).
  - reflexivity.
  - unfold validIndex; simpl; lia.
Defined.

(** C4: with N > 0 images and the current index in [0, N-1], "previous"
    undoes "next": the updater of [handlePrevImage] maps the index "next"
    produced back to the old one, and running the two handlers in sequence
    gives back the starting state. *)
Theorem prev_inverts_next (p : Project) (s : State) :
  0 < length_ (screenshots p) ->
  validIndex (length_ (screenshots p)) s ->
  prevImageIndex p (nextImageIndex p (currentImageIndex s)) = currentImageIndex s
  /\ exists s1,
       exec (handleNextImage (Some p)) s = inr s1
       /\ exec (handlePrevImage (Some p)) s1 = inr s.
Proof.
  intros _ Hs. split.
  - apply prev_next_index. exact Hs.
  - eexists. split; [apply exec_handleNextImage |].
    rewrite exec_handlePrevImage. cbn [withIndex currentImageIndex].
    rewrite prev_next_index by exact Hs.
    destruct s; reflexivity.
Qed.

Lemma prev_inverts_next_witness :
  prevImageIndex galleryOf3 (nextImageIndex galleryOf3 2) = 2
  /\ exists s1,
       exec (handleNextImage (Some galleryOf3)) (atIndex 2) = inr s1
       /\ exec (handlePrevImage (Some galleryOf3)) s1 = inr (atIndex 2).
Proof.
  apply (prev_inverts_next galleryOf3 (atIndex 2)).
  - reflexivity.
  - unfold validIndex; simpl; lia.
Defined.

(** ** The empty image list *)

(** C1 as stated fails: with no image, "next" and "previous" are not no-ops
    on the index; from the initial state "next" stores 1 and "previous"
    stores -1. *)
Lemma empty_next_prev_move_index :
  length_ (screenshots emptyGallery) = 0
  /\ (exists s', exec (handleNextImage (Some emptyGallery)) initialState = inr s'
                 /\ currentImageIndex s' <> currentImageIndex initialState)
  /\ (exists s', exec (handlePrevImage (Some emptyGallery)) initialState = inr s'
                 /\ currentImageIndex s' <> currentImageIndex initialState).
Proof.
  split; [reflexivity |].
  split; eexists; (split; [reflexivity | vm_compute; discriminate]).
Qed.

(** C1 (amended): with an empty image list, "next" and "previous" complete
    without a fault and leave [showImageViewer] and [touchStartX] as they
    were, and the carousel is not rendered whatever the index is; the stored
    index does move: when it is a safe integer, "next" turns -1 into 0 and
    any other i into i + 1, and "previous" turns 0 into -1 and any other i
    into i - 1.  They leave the whole state alone when no project was
    found. *)
Theorem empty_next_prev (p : Project) (s : State) :
  length_ (screenshots p) = 0 ->
  isSafeInteger (currentImageIndex s) ->
  exec (handleNextImage (Some p)) s
  = inr (withIndex s (if currentImageIndex s =? -1 then 0
                      else currentImageIndex s + 1))
  /\ exec (handlePrevImage (Some p)) s
     = inr (withIndex s (if currentImageIndex s =? 0 then -1
                         else currentImageIndex s - 1))
  /\ (forall r, renderCarousel (Some p) p r = None)
  /\ exec (handleNextImage None) s = inr s
  /\ exec (handlePrevImage None) s = inr s.
Proof.
  intros Hn _.
  rewrite exec_handleNextImage, exec_handlePrevImage.
  unfold nextImageIndex, prevImageIndex, renderCarousel. rewrite Hn.
  repeat split.
Qed.

Lemma empty_next_prev_witness :
  exec (handleNextImage (Some emptyGallery)) initialState
  = inr (withIndex initialState 1)
  /\ exec (handlePrevImage (Some emptyGallery)) initialState
     = inr (withIndex initialState (-1))
  /\ (forall r, renderCarousel (Some emptyGallery) emptyGallery r = None)
  /\ exec (handleNextImage None) initialState = inr initialState
  /\ exec (handlePrevImage None) initialState = inr initialState.
Proof.
  apply (empty_next_prev emptyGallery initialState).
  - reflexivity.
  - unfold isSafeInteger, MAX_SAFE_INTEGER; simpl; lia.
Defined.

(** ** Explicit selection *)

Lemma nth_error_indices {A : Type} (a : list A) (position : nat) :
  nth_error (indices a) position
  = if (position <? List.length a)%nat then Some (Z.of_nat position) else None.
Proof.
  unfold indices. rewrite nth_error_map, nth_error_seq.
  destruct (position <? List.length a)%nat; reflexivity.
Qed.

(** What a click on the indicator at [position] does: the indicators are
    the positions of the image list, and the click stores its own. *)
Lemma dispatch_ClickIndicator (p : Project) (s : State) (position : nat) :
  dispatch (Some p) s (ClickIndicator position)
  = if (position <? List.length (screenshots p))%nat
    then inr (withIndex s (Z.of_nat position))
    else inr s.
Proof.
  unfold dispatch, listener, render, carouselOf, renderCarousel, length_.
  destruct (Z.gtb_spec (Z.of_nat (List.length (screenshots p))) 0) as [Hpos | Hzero].
  - cbn [indicators]. rewrite nth_error_map, nth_error_indices.
    destruct (position <? List.length (screenshots p))%nat; reflexivity.
  - destruct (Nat.ltb_spec position (List.length (screenshots p))); [lia | reflexivity].
Qed.

(** C2 as stated fails: the setter stores an index outside [0, N-1] as it
    is; selecting 5 among three images leaves 5 in the state, which is not a
    valid index. *)
Lemma explicit_selection_not_clamped :
  0 < length_ (screenshots galleryOf3)
  /\ ~ (0 <= 5 <= length_ (screenshots galleryOf3) - 1)
  /\ exists s',
       exec (setCurrentImageIndex 5) initialState = inr s'
       /\ currentImageIndex s' = 5
       /\ ~ validIndex (length_ (screenshots galleryOf3)) s'.
Proof.
  split; [reflexivity |].
  split; [vm_compute; intros [_ H]; apply H; reflexivity |].
  eexists. split; [reflexivity |]. split; [reflexivity |].
  vm_compute. intros [_ H]. apply H. reflexivity.
Qed.

(** C2 (amended): explicit selection never faults and does no clamping, it
    stores the requested index exactly as given; the indicator buttons are
    built from the positions of the image list, so the index an indicator
    click requests is already in [0, N-1], and after the click the current
    index is that position and is valid. *)
Theorem indicator_selection_in_range (p : Project) (s : State) (position : nat) :
  (position < List.length (screenshots p))%nat ->
  (forall i, exec (setCurrentImageIndex i) s = inr (withIndex s i))
  /\ dispatch (Some p) s (ClickIndicator position)
     = inr (withIndex s (Z.of_nat position))
  /\ validIndex (length_ (screenshots p)) (withIndex s (Z.of_nat position)).
Proof.
  intros Hpos. split; [intros i; apply exec_setCurrentImageIndex |]. split.
  - rewrite dispatch_ClickIndicator.
    destruct (Nat.ltb_spec position (List.length (screenshots p))); [reflexivity | lia].
  - unfold validIndex, length_. cbn [withIndex currentImageIndex]. lia.
Qed.

Lemma indicator_selection_in_range_witness :
  (forall i, exec (setCurrentImageIndex i) initialState = inr (withIndex initialState i))
  /\ dispatch (Some galleryOf3) initialState (ClickIndicator 2)
     = inr (withIndex initialState 2)
  /\ validIndex 3 (withIndex initialState 2).
Proof.
  apply (indicator_selection_in_range galleryOf3 initialState 2).
  simpl. lia.
Defined.

(** ** The swipe recognizer *)

Section TouchEnd.

Variable project : option Project.
Variables (r s : State) (e : TouchEvent).

Lemma exec_handleTouchEnd_idle :
  touchStartX r = None ->
  exec (handleTouchEnd project r e) s = inr (withTouch s None).
Proof. unfold handleTouchEnd. intros ->. reflexivity. Qed.

Lemma exec_handleTouchEnd_fault startX :
  touchStartX r = Some startX ->
  changedTouches e = [] ->
  exec (handleTouchEnd project r e) s = inl TypeError.
Proof. unfold handleTouchEnd. intros -> ->. reflexivity. Qed.

Lemma exec_handleTouchEnd_tracking startX t rest :
  touchStartX r = Some startX ->
  changedTouches e = t :: rest ->
  exec (handleTouchEnd project r e) s
  = exec ((if startX - clientX t >? 50 then handleNextImage project
           else if startX - clientX t <? -50 then handlePrevImage project
           else ret tt) ;;
          setTouchStartX None) s.
Proof. unfold handleTouchEnd. intros -> ->. reflexivity. Qed.

(** "Next" and "previous" themselves never fault and never touch
    [touchStartX]. *)
Lemma exec_navigation_total (h : Handler unit) :
  h = handleNextImage project \/ h = handlePrevImage project \/ h = ret tt ->
  exists i, exec h s = inr (withIndex s i).
Proof.
  intros [-> | [-> | ->]]; destruct project as [p |];
    try (eexists; reflexivity);
    exists (currentImageIndex s); rewrite withIndex_same; reflexivity.
Qed.

End TouchEnd.

(** C5: at a touch end with a recorded [startX] and end coordinate [endX],
    the handler does what "next" followed by the reset does when
    [startX - endX > 50], what "previous" followed by the reset does when
    [startX - endX < -50], and only resets otherwise; so distances of
    exactly 50 and -50 navigate nowhere, and 51 is a "next". *)
Theorem swipe_threshold (project : option Project) (r s : State)
    (e : TouchEvent) (startX endX : Z) (rest : list Touch) :
  touchStartX r = Some startX ->
  changedTouches e = {| clientX := endX |} :: rest ->
  (startX - endX > 50 ->
     exec (handleTouchEnd project r e) s
     = exec (handleNextImage project ;; setTouchStartX None) s)
  /\ (startX - endX < -50 ->
        exec (handleTouchEnd project r e) s
        = exec (handlePrevImage project ;; setTouchStartX None) s)
  /\ (-50 <= startX - endX <= 50 ->
        exec (handleTouchEnd project r e) s = inr (withTouch s None))
  /\ (startX - endX = 50 \/ startX - endX = -50 ->
        exec (handleTouchEnd project r e) s = inr (withTouch s None))
  /\ (startX - endX = 51 ->
        exec (handleTouchEnd project r e) s
        = exec (handleNextImage project ;; setTouchStartX None) s).
Proof.
  intros Hr He.
  rewrite (exec_handleTouchEnd_tracking project r s e startX _ rest Hr He).
  cbn [clientX].
  assert (Hfar : startX - endX > 50 ->
            exec ((if startX - endX >? 50 then handleNextImage project
                   else if startX - endX <? -50 then handlePrevImage project
                   else ret tt) ;; setTouchStartX None) s
            = exec (handleNextImage project ;; setTouchStartX None) s).
  { intros Hd. destruct (Z.gtb_spec (startX - endX) 50); [reflexivity | lia]. }
  assert (Hnear : -50 <= startX - endX <= 50 ->
            exec ((if startX - endX >? 50 then handleNextImage project
                   else if startX - endX <? -50 then handlePrevImage project
                   else ret tt) ;; setTouchStartX None) s
            = inr (withTouch s None)).
  { intros Hd. destruct (Z.gtb_spec (startX - endX) 50); [lia |].
    destruct (Z.ltb_spec (startX - endX) (-50)); [lia | reflexivity]. }
  split; [exact Hfar |]. split; [| split; [exact Hnear |]].
  - intros Hd. destruct (Z.gtb_spec (startX - endX) 50); [lia |].
    destruct (Z.ltb_spec (startX - endX) (-50)); [reflexivity | lia].
  - split.
    + intros Hd. apply Hnear. lia.
    + intros Hd. apply Hfar. lia.
Qed.

Lemma swipe_threshold_witness :
  exec (handleTouchEnd (Some galleryOf3) (tracking 300) (touchEndAt 249)) (tracking 300)
  = exec (handleNextImage (Some galleryOf3) ;; setTouchStartX None) (tracking 300)
  /\ exec (handleTouchEnd (Some galleryOf3) (tracking 300) (touchEndAt 351)) (tracking 300)
     = exec (handlePrevImage (Some galleryOf3) ;; setTouchStartX None) (tracking 300)
  /\ exec (handleTouchEnd (Some galleryOf3) (tracking 300) (touchEndAt 250)) (tracking 300)
     = inr (withTouch (tracking 300) None)
  /\ exec (handleTouchEnd (Some galleryOf3) (tracking 300) (touchEndAt 350)) (tracking 300)
     = inr (withTouch (tracking 300) None).
Proof.
  split; [| split; [| split]].
  - apply (swipe_threshold (Some galleryOf3) (tracking 300) (tracking 300)
             (touchEndAt 249) 300 249 []); reflexivity.
  - apply (swipe_threshold (Some galleryOf3) (tracking 300) (tracking 300)
             (touchEndAt 351) 300 351 []); reflexivity.
  - apply (swipe_threshold (Some galleryOf3) (tracking 300) (tracking 300)
             (touchEndAt 250) 300 250 []); try reflexivity.
    left; reflexivity.
  - apply (swipe_threshold (Some galleryOf3) (tracking 300) (tracking 300)
             (touchEndAt 350) 300 350 []); try reflexivity.
    right; reflexivity.
Defined.

(** The threshold on concrete swipes over three images, from index 0:
    51 pixels to the left is a "next", exactly 50 is nothing, 51 to the
    right is a "previous", exactly -50 is nothing. *)
Example swipe_51_is_next :
  dispatch (Some galleryOf3) (tracking 300) (TouchEnd (touchEndAt 249))
  = inr (atIndex 1).
Proof. reflexivity. Qed.

Example swipe_50_is_nothing :
  dispatch (Some galleryOf3) (tracking 300) (TouchEnd (touchEndAt 250))
  = inr (atIndex 0).
Proof. reflexivity. Qed.

Example swipe_minus_51_is_prev :
  dispatch (Some galleryOf3) (tracking 200) (TouchEnd (touchEndAt 251))
  = inr (atIndex 2).
Proof. reflexivity. Qed.

Example swipe_minus_50_is_nothing :
  dispatch (Some galleryOf3) (tracking 200) (TouchEnd (touchEndAt 250))
  = inr (atIndex 0).
Proof. reflexivity. Qed.

(** C9: whenever the touch-end handler completes, [touchStartX] is [None],
    whether or not it navigated; it does complete for every event that
    carries a changed touch and for every event that arrives while nothing is
    tracked; and in that last case the event changes nothing at all: no
    navigation and no fault. *)
Theorem touch_end_resets (project : option Project) (r s : State) (e : TouchEvent) :
  (forall s', exec (handleTouchEnd project r e) s = inr s' -> touchStartX s' = None)
  /\ (changedTouches e <> [] \/ touchStartX r = None ->
        exists s', exec (handleTouchEnd project r e) s = inr s')
  /\ (touchStartX r = None ->
        exec (handleTouchEnd project r e) s = inr (withTouch s None))
  /\ (touchStartX s = None -> dispatch project s (TouchEnd e) = inr s).
Proof.
  assert (Hrun : forall startX t rest,
            touchStartX r = Some startX -> changedTouches e = t :: rest ->
            exists i, exec (handleTouchEnd project r e) s
                      = inr (withTouch (withIndex s i) None)).
  { intros startX t rest Hr He.
    rewrite (exec_handleTouchEnd_tracking project r s e startX t rest Hr He).
    rewrite exec_seq.
    destruct (exec_navigation_total project s
                (if startX - clientX t >? 50 then handleNextImage project
                 else if startX - clientX t <? -50 then handlePrevImage project
                 else ret tt)) as [i Hi].
    { destruct (startX - clientX t >? 50); [now left |].
      destruct (startX - clientX t <? -50); [right; now left | right; now right]. }
    rewrite Hi. exists i. apply exec_setTouchStartX. }
  split; [| split; [| split]].
  - intros s' Hs'.
    destruct (touchStartX r) as [startX |] eqn:Hr.
    + destruct (changedTouches e) as [| t rest] eqn:He.
      * rewrite (exec_handleTouchEnd_fault project r s e startX Hr He) in Hs'.
        discriminate.
      * destruct (Hrun startX t rest eq_refl eq_refl) as [i Hi].
        rewrite Hi in Hs'. injection Hs' as <-. reflexivity.
    + rewrite (exec_handleTouchEnd_idle project r s e Hr) in Hs'.
      injection Hs' as <-. reflexivity.
  - intros Hok.
    destruct (touchStartX r) as [startX |] eqn:Hr.
    + destruct (changedTouches e) as [| t rest] eqn:He.
      * destruct Hok as [Hne | Hnone]; [now elim Hne | discriminate].
      * destruct (Hrun startX t rest eq_refl eq_refl) as [i Hi]. eauto.
    + rewrite (exec_handleTouchEnd_idle project r s e Hr). eauto.
  - apply exec_handleTouchEnd_idle.
  - intros Hs. unfold dispatch, listener, render.
    destruct project as [p |]; [| reflexivity].
    rewrite (exec_handleTouchEnd_idle (Some p) s s e Hs).
    rewrite <- Hs. now rewrite withTouch_same.
Qed.

Lemma touch_end_resets_witness :
  touchStartX (atIndex 1) = None
  /\ (exists s', exec (handleTouchEnd (Some galleryOf3) (tracking 300) (touchEndAt 120))
                    (tracking 300) = inr s')
  /\ exec (handleTouchEnd (Some galleryOf3) initialState (touchEndAt 120)) initialState
     = inr (withTouch initialState None)
  /\ dispatch (Some galleryOf3) initialState (TouchEnd (touchEndAt 120))
     = inr initialState.
Proof.
  split; [| split; [| split]].
  - apply (proj1 (touch_end_resets (Some galleryOf3) (tracking 300) (tracking 300)
                    (touchEndAt 120)) (atIndex 1)).
    reflexivity.
  - apply (touch_end_resets (Some galleryOf3) (tracking 300) (tracking 300)
             (touchEndAt 120)).
    left. discriminate.
  - apply (touch_end_resets (Some galleryOf3) initialState initialState
             (touchEndAt 120)).
    reflexivity.
  - apply (touch_end_resets (Some galleryOf3) initialState initialState
             (touchEndAt 120)).
    reflexivity.
Defined.

(** ** What each event does *)

Lemma exec_handleNextImage_navigated project s s' :
  exec (handleNextImage project) s = inr s' -> navigated project s s'.
Proof.
  destruct project as [p |]; intros [= <-].
  - now apply nav_next.
  - apply nav_stay.
Qed.

Lemma exec_handlePrevImage_navigated project s s' :
  exec (handlePrevImage project) s = inr s' -> navigated project s s'.
Proof.
  destruct project as [p |]; intros [= <-].
  - now apply nav_prev.
  - apply nav_stay.
Qed.

Lemma exec_handleKeyDown_navigated project key s s' :
  exec (handleKeyDown project key) s = inr s' -> navigated project s s'.
Proof.
  unfold handleKeyDown.
  destruct (key =? "ArrowLeft")%string;
    [apply exec_handlePrevImage_navigated |].
  destruct (key =? "ArrowRight")%string;
    [apply exec_handleNextImage_navigated |].
  intros [= <-]. apply nav_stay.
Qed.

Lemma exec_handleTouchStart_cases e s s' :
  exec (handleTouchStart e) s = inr s' ->
  exists t rest, touches e = t :: rest /\ s' = withTouch s (Some (clientX t)).
Proof.
  unfold handleTouchStart. destruct (touches e) as [| t rest].
  - discriminate.
  - intros [= <-]. now exists t, rest.
Qed.

Lemma exec_handleTouchEnd_cases project r e s s' :
  exec (handleTouchEnd project r e) s = inr s' ->
  exists s0, navigated project s s0 /\ s' = withTouch s0 None.
Proof.
  destruct (touchStartX r) as [startX |] eqn:Hr.
  - destruct (changedTouches e) as [| t rest] eqn:He.
    + rewrite (exec_handleTouchEnd_fault project r s e startX Hr He). discriminate.
    + rewrite (exec_handleTouchEnd_tracking project r s e startX t rest Hr He).
      rewrite exec_seq.
      destruct (exec _ s) as [err | s0] eqn:Hnav; [discriminate |].
      rewrite exec_setTouchStartX. intros [= <-].
      exists s0. split; [| reflexivity].
      destruct (startX - clientX t >? 50);
        [now apply exec_handleNextImage_navigated |].
      destruct (startX - clientX t <? -50);
        [now apply exec_handlePrevImage_navigated |].
      injection Hnav as <-. apply nav_stay.
  - rewrite (exec_handleTouchEnd_idle project r s e Hr). intros [= <-].
    exists s. split; [apply nav_stay | reflexivity].
Qed.

Lemma renderCarousel_some project p r :
  0 < length_ (screenshots p) ->
  exists c, renderCarousel project p r = Some c
            /\ imgSrc c = index_ (screenshots p) (currentImageIndex r)
            /\ imgOnClick c = handleOpenImageViewer (currentImageIndex r)
            /\ prevOnClick c = handlePrevImage project
            /\ nextOnClick c = handleNextImage project.
Proof.
  intros Hn. unfold renderCarousel.
  destruct (Z.gtb_spec (length_ (screenshots p)) 0); [| lia].
  eexists. repeat split.
Qed.

Lemma renderCarousel_none project p r :
  length_ (screenshots p) <= 0 -> renderCarousel project p r = None.
Proof.
  intros Hn. unfold renderCarousel.
  destruct (Z.gtb_spec (length_ (screenshots p)) 0); [lia | reflexivity].
Qed.

(** The event table: the state an event leaves, by kind of event. *)
Lemma dispatch_cases project s ev s' :
  dispatch project s ev = inr s' ->
  match ev with
  | KeyDown _ | ClickPrev | ClickNext | ViewerNext | ViewerPrev =>
      navigated project s s'
  | TouchStart _ => s' = s \/ exists x, s' = withTouch s (Some x)
  | TouchEnd _ =>
      s' = s \/ exists s0, navigated project s s0 /\ s' = withTouch s0 None
  | ClickImage => s' = s \/ s' = withShow s true
  | ClickIndicator position =>
      s' = s
      \/ exists p, project = Some p
                   /\ (position < List.length (screenshots p))%nat
                   /\ s' = withIndex s (Z.of_nat position)
  | ViewerClose => s' = s \/ s' = withShow s false
  end.
Proof.
  destruct project as [p |].
  2: { destruct ev; try (intros [= <-]; first [apply nav_stay | now left]).
       apply exec_handleKeyDown_navigated. }
  destruct ev as [key | e | e | | | | position | | |].
  - apply exec_handleKeyDown_navigated.
  - intros H. apply exec_handleTouchStart_cases in H as (t & rest & _ & ->).
    right. now exists (clientX t).
  - intros H. right. now apply exec_handleTouchEnd_cases in H.
  - unfold dispatch, listener, render, carouselOf.
    destruct (Z_lt_le_dec 0 (length_ (screenshots p))) as [Hn | Hn].
    + destruct (renderCarousel_some (Some p) p s Hn) as (c & Hc & _ & Hclick & _).
      rewrite Hc. cbn [option_map]. rewrite Hclick.
      rewrite exec_handleOpenImageViewer, withIndex_same.
      intros [= <-]. now right.
    + rewrite renderCarousel_none by exact Hn. intros [= <-]. now left.
  - unfold dispatch, listener, render, carouselOf.
    destruct (Z_lt_le_dec 0 (length_ (screenshots p))) as [Hn | Hn].
    + destruct (renderCarousel_some (Some p) p s Hn) as (c & Hc & _ & _ & Hclick & _).
      rewrite Hc. cbn [option_map]. rewrite Hclick.
      apply exec_handlePrevImage_navigated.
    + rewrite renderCarousel_none by exact Hn. intros [= <-]. apply nav_stay.
  - unfold dispatch, listener, render, carouselOf.
    destruct (Z_lt_le_dec 0 (length_ (screenshots p))) as [Hn | Hn].
    + destruct (renderCarousel_some (Some p) p s Hn) as (c & Hc & _ & _ & _ & Hclick).
      rewrite Hc. cbn [option_map]. rewrite Hclick.
      apply exec_handleNextImage_navigated.
    + rewrite renderCarousel_none by exact Hn. intros [= <-]. apply nav_stay.
  - rewrite dispatch_ClickIndicator.
    destruct (Nat.ltb_spec position (List.length (screenshots p)));
      intros [= <-]; [right; now exists p | now left].
  - intros [= <-]. now right.
  - apply exec_handleNextImage_navigated.
  - apply exec_handlePrevImage_navigated.
Qed.

Lemma navigated_validIndex p s s' :
  validIndex (length_ (screenshots p)) s ->
  navigated (Some p) s s' ->
  validIndex (length_ (screenshots p)) s'.
Proof.
  unfold validIndex. intros Hs [| q [= <-] | q [= <-]]; cbn [withIndex currentImageIndex].
  - exact Hs.
  - now apply nextImageIndex_range.
  - now apply prevImageIndex_range.
Qed.

Lemma navigated_showImageViewer project s s' :
  navigated project s s' -> showImageViewer s' = showImageViewer s.
Proof. intros [| p _ | p _]; reflexivity. Qed.

(** ** The index invariant *)

(** C6: with N > 0 images and the current index in [0, N-1], each operation
    completes and leaves the index in [0, N-1]: "next", "previous", the
    explicit selection of a valid index, opening the viewer on a valid index
    and closing it; and so does every event of the page that completes. *)
Theorem index_invariant (p : Project) (s : State) :
  0 < length_ (screenshots p) ->
  validIndex (length_ (screenshots p)) s ->
  (exists s', exec (handleNextImage (Some p)) s = inr s'
              /\ validIndex (length_ (screenshots p)) s')
  /\ (exists s', exec (handlePrevImage (Some p)) s = inr s'
                 /\ validIndex (length_ (screenshots p)) s')
  /\ (forall i, 0 <= i <= length_ (screenshots p) - 1 ->
        exists s', exec (setCurrentImageIndex i) s = inr s'
                   /\ validIndex (length_ (screenshots p)) s')
  /\ (forall i, 0 <= i <= length_ (screenshots p) - 1 ->
        exists s', exec (handleOpenImageViewer i) s = inr s'
                   /\ validIndex (length_ (screenshots p)) s')
  /\ (exists s', exec handleCloseImageViewer s = inr s'
                 /\ validIndex (length_ (screenshots p)) s')
  /\ (forall ev s', dispatch (Some p) s ev = inr s' ->
        validIndex (length_ (screenshots p)) s').
Proof.
  intros Hn Hs.
  split; [| split; [| split; [| split; [| split]]]].
  - eexists. split; [apply exec_handleNextImage |].
    apply nextImageIndex_range. exact Hs.
  - eexists. split; [apply exec_handlePrevImage |].
    apply prevImageIndex_range. exact Hs.
  - intros i Hi. eexists. split; [apply exec_setCurrentImageIndex | exact Hi].
  - intros i Hi. eexists. split; [apply exec_handleOpenImageViewer | exact Hi].
  - eexists. split; [apply exec_handleCloseImageViewer | exact Hs].
  - intros ev s' Hev. apply dispatch_cases in Hev.
    destruct ev as [key | e | e | | | | position | | |];
      try (now apply (navigated_validIndex p s)).
    + destruct Hev as [-> | [x ->]]; exact Hs.
    + destruct Hev as [-> | (s0 & Hnav & ->)]; [exact Hs |].
      apply (navigated_validIndex p s s0 Hs Hnav).
    + destruct Hev as [-> | ->]; exact Hs.
    + destruct Hev as [-> | (q & [= <-] & Hpos & ->)]; [exact Hs |].
      unfold validIndex, length_. cbn [withIndex currentImageIndex]. lia.
    + destruct Hev as [-> | ->]; exact Hs.
Qed.

Lemma index_invariant_witness :
  (exists s', exec (handleNextImage (Some galleryOf3)) (atIndex 2) = inr s'
              /\ validIndex 3 s')
  /\ (exists s', exec (handlePrevImage (Some galleryOf3)) (atIndex 2) = inr s'
                 /\ validIndex 3 s')
  /\ (forall i, 0 <= i <= 3 - 1 ->
        exists s', exec (setCurrentImageIndex i) (atIndex 2) = inr s'
                   /\ validIndex 3 s')
  /\ (forall i, 0 <= i <= 3 - 1 ->
        exists s', exec (handleOpenImageViewer i) (atIndex 2) = inr s'
                   /\ validIndex 3 s')
  /\ (exists s', exec handleCloseImageViewer (atIndex 2) = inr s'
                 /\ validIndex 3 s')
  /\ (forall ev s', dispatch (Some galleryOf3) (atIndex 2) ev = inr s' ->
        validIndex 3 s').
Proof.
  apply (index_invariant galleryOf3 (atIndex 2)).
  - reflexivity.
  - unfold validIndex; simpl; lia.
Defined.

(** ** Opening and closing the viewer *)

Lemma inlineImage_index p s :
  0 < length_ (screenshots p) ->
  inlineImage p s = index_ (screenshots p) (currentImageIndex s).
Proof.
  intros Hn. unfold inlineImage.
  destruct (renderCarousel_some (Some p) p s Hn) as (c & -> & Hsrc & _).
  exact Hsrc.
Qed.

Lemma viewerImage_index p s :
  viewerImage p s = index_ (screenshots p) (currentImageIndex s).
Proof. reflexivity. Qed.

Lemma dispatch_ClickImage p s :
  0 < length_ (screenshots p) ->
  dispatch (Some p) s ClickImage = inr (withShow s true).
Proof.
  intros Hn. unfold dispatch, listener, render, carouselOf.
  destruct (renderCarousel_some (Some p) p s Hn) as (c & Hc & _ & Hclick & _).
  rewrite Hc. cbn [option_map]. rewrite Hclick.
  now rewrite exec_handleOpenImageViewer, withIndex_same.
Qed.

(** C7: opening the viewer with clicked index [i] first stores [i] as the
    current index, with the viewer flag still as it was, and then sets the
    flag; the viewer then receives [show = true] and [currentIndex = i], and
    the inline carousel and the viewer read the same image, the one at [i].
    When [i] is an index of the image list, a "next" requested from the
    viewer moves both to (i + 1) mod N. *)
Theorem open_viewer_shows_clicked (p : Project) (s : State) (i : Z) :
  exists s1,
    exec (handleOpenImageViewer i) s = inr s1
    /\ (exists s_mid,
          exec (setCurrentImageIndex i) s = inr s_mid
          /\ currentImageIndex s_mid = i
          /\ showImageViewer s_mid = showImageViewer s
          /\ exec (setShowImageViewer true) s_mid = inr s1)
    /\ currentImageIndex s1 = i
    /\ showImageViewer s1 = true
    /\ option_map show (renderImageViewer (Some p) p s1) = Some true
    /\ option_map currentIndex (renderImageViewer (Some p) p s1) = Some i
    /\ viewerImage p s1 = index_ (screenshots p) i
    /\ (0 < length_ (screenshots p) ->
          inlineImage p s1 = index_ (screenshots p) i)
    /\ (0 <= i <= length_ (screenshots p) - 1 ->
          exists s2,
            dispatch (Some p) s1 ViewerNext = inr s2
            /\ currentImageIndex s2 = (i + 1) mod length_ (screenshots p)
            /\ showImageViewer s2 = true
            /\ inlineImage p s2
               = index_ (screenshots p) ((i + 1) mod length_ (screenshots p))
            /\ viewerImage p s2
               = index_ (screenshots p) ((i + 1) mod length_ (screenshots p))).
Proof.
  exists (withShow (withIndex s i) true).
  split; [apply exec_handleOpenImageViewer |].
  split; [exists (withIndex s i); repeat split |].
  do 5 (split; [reflexivity |]).
  split.
  - intros Hn. now rewrite inlineImage_index.
  - intros Hi. eexists.
    split; [unfold dispatch; cbn [render listener imageViewerOf renderImageViewer
                                  option_map onNext];
            apply exec_handleNextImage |].
    cbn [withShow withIndex currentImageIndex showImageViewer].
    rewrite inlineImage_index by lia. rewrite viewerImage_index.
    cbn [withShow withIndex currentImageIndex showImageViewer].
    rewrite nextImageIndex_mod by exact Hi.
    repeat split.
Qed.

Lemma open_viewer_shows_clicked_witness :
  exists s1 s2,
    exec (handleOpenImageViewer 3) initialState = inr s1
    /\ viewerImage galleryOf4 s1 = Some "d.png"%string
    /\ inlineImage galleryOf4 s1 = Some "d.png"%string
    /\ dispatch (Some galleryOf4) s1 ViewerNext = inr s2
    /\ currentImageIndex s2 = 0
    /\ inlineImage galleryOf4 s2 = Some "a.png"%string
    /\ viewerImage galleryOf4 s2 = Some "a.png"%string.
Proof.
  destruct (open_viewer_shows_clicked galleryOf4 initialState 3)
    as (s1 & Hopen & _ & _ & _ & _ & _ & Hviewer & Hinline & Hnext).
  destruct Hnext as (s2 & Hstep & Hidx & _ & Hinline2 & Hviewer2).
  { unfold length_; simpl; lia. }
  exists s1, s2.
  split; [exact Hopen |].
  split; [exact Hviewer |].
  split; [apply Hinline; reflexivity |].
  split; [exact Hstep |].
  split; [exact Hidx |].
  split; [exact Hinline2 | exact Hviewer2].
Defined.

(** C8: closing the viewer sets [showImageViewer] to [false] and changes
    nothing else; so after opening on index [i], closing, and clicking the
    inline image again, the viewer is open on [i]. *)
Theorem close_viewer_keeps_index (p : Project) (s : State) (i : Z) :
  exec handleCloseImageViewer s = inr (withShow s false)
  /\ dispatch (Some p) s ViewerClose = inr (withShow s false)
  /\ showImageViewer (withShow s false) = false
  /\ currentImageIndex (withShow s false) = currentImageIndex s
  /\ touchStartX (withShow s false) = touchStartX s
  /\ (0 < length_ (screenshots p) ->
        exists s1 s2 s3,
          exec (handleOpenImageViewer i) s = inr s1
          /\ dispatch (Some p) s1 ViewerClose = inr s2
          /\ showImageViewer s2 = false
          /\ currentImageIndex s2 = i
          /\ dispatch (Some p) s2 ClickImage = inr s3
          /\ showImageViewer s3 = true
          /\ currentImageIndex s3 = i
          /\ viewerImage p s3 = index_ (screenshots p) i).
Proof.
  do 5 (split; [reflexivity |]).
  intros Hn.
  exists (withShow (withIndex s i) true), (withShow (withIndex s i) false),
    (withShow (withIndex s i) true).
  split; [apply exec_handleOpenImageViewer |].
  split; [reflexivity |].
  split; [reflexivity |].
  split; [reflexivity |].
  split; [now rewrite dispatch_ClickImage |].
  repeat split.
Qed.

Lemma close_viewer_keeps_index_witness :
  exists s1 s2 s3,
    exec (handleOpenImageViewer 2) initialState = inr s1
    /\ dispatch (Some galleryOf3) s1 ViewerClose = inr s2
    /\ showImageViewer s2 = false
    /\ currentImageIndex s2 = 2
    /\ dispatch (Some galleryOf3) s2 ClickImage = inr s3
    /\ showImageViewer s3 = true
    /\ currentImageIndex s3 = 2
    /\ viewerImage galleryOf3 s3 = index_ (screenshots galleryOf3) 2.
Proof.
  apply (close_viewer_keeps_index galleryOf3 initialState 2).
  reflexivity.
Defined.

(** C10: the click handler of the inline image is
    [handleOpenImageViewer] applied to the current index of the render, so a
    click on the image leaves the state as it was but for
    [showImageViewer = true]; and no other event opens the viewer: an event
    that finds the viewer closed and leaves it open is that click, and the
    index it leaves is the one it found. *)
Theorem open_passes_current_index (project : option Project) (s : State) :
  (forall p c, renderCarousel project p s = Some c ->
     imgOnClick c = handleOpenImageViewer (currentImageIndex s))
  /\ exec (handleOpenImageViewer (currentImageIndex s)) s = inr (withShow s true)
  /\ (forall p, project = Some p -> 0 < length_ (screenshots p) ->
        dispatch project s ClickImage = inr (withShow s true))
  /\ (forall ev s',
        dispatch project s ev = inr s' ->
        showImageViewer s = false ->
        showImageViewer s' = true ->
        ev = ClickImage
        /\ s' = withShow s true
        /\ currentImageIndex s' = currentImageIndex s).
Proof.
  split; [| split; [| split]].
  - intros p c. unfold renderCarousel.
    destruct (length_ (screenshots p) >? 0); [| discriminate].
    intros [= <-]. reflexivity.
  - now rewrite exec_handleOpenImageViewer, withIndex_same.
  - intros p -> Hn. now apply dispatch_ClickImage.
  - intros ev s' Hev Hclosed Hopen. apply dispatch_cases in Hev.
    destruct ev as [key | e | e | | | | position | | |];
      try (apply navigated_showImageViewer in Hev; congruence).
    + destruct Hev as [-> | [x ->]]; cbn in Hopen; congruence.
    + destruct Hev as [-> | (s0 & Hnav & ->)]; [congruence |].
      apply navigated_showImageViewer in Hnav. cbn in Hopen. congruence.
    + destruct Hev as [-> | ->]; [congruence |]. repeat split.
    + destruct Hev as [-> | (q & _ & _ & ->)]; cbn in Hopen; congruence.
    + destruct Hev as [-> | ->]; cbn in Hopen; congruence.
Qed.

Lemma open_passes_current_index_witness :
  dispatch (Some galleryOf3) (atIndex 1) ClickImage = inr (withShow (atIndex 1) true)
  /\ currentImageIndex (withShow (atIndex 1) true) = currentImageIndex (atIndex 1).
Proof.
  split.
  - apply (open_passes_current_index (Some galleryOf3) (atIndex 1) : _ /\ _ /\ _ /\ _)
      with (p := galleryOf3); reflexivity.
  - apply (open_passes_current_index (Some galleryOf3) (atIndex 1)
           : _ /\ _ /\ _ /\ _) with (ev := ClickImage); reflexivity.
Defined.

(** * Further properties of the page *)

(** ** Navigation backwards *)

Lemma next_prev_index p i :
  0 <= i <= length_ (screenshots p) - 1 ->
  nextImageIndex p (prevImageIndex p i) = i.
Proof.
  intros Hi. unfold prevImageIndex, nextImageIndex.
  destruct (Z.eqb_spec i 0) as [-> | Hne].
  - now rewrite Z.eqb_refl.
  - destruct (Z.eqb_spec (i - 1) (length_ (screenshots p) - 1)); lia.
Qed.

(** [k] presses of "previous" move a valid index [k] places back round the
    cycle. *)
Lemma repeat_prev p k : forall s,
  validIndex (length_ (screenshots p)) s ->
  repeat_exec k (handlePrevImage (Some p)) s
  = inr (withIndex s ((currentImageIndex s - Z.of_nat k) mod length_ (screenshots p))).
Proof.
  induction k as [| k IH]; intros s Hs; pose proof Hs as Hi; unfold validIndex in Hi.
  - simpl. rewrite Z.sub_0_r, Z.mod_small by lia.
    now rewrite withIndex_same.
  - cbn [repeat_exec]. rewrite exec_handlePrevImage.
    rewrite IH by (apply prevImageIndex_range; exact Hi).
    rewrite prevImageIndex_mod by exact Hi.
    unfold withIndex; simpl. do 2 f_equal.
    rewrite Zminus_mod_idemp_l.
    replace (currentImageIndex s - 1 + length_ (screenshots p) - Z.of_nat k)
      with (currentImageIndex s - Z.pos (Pos.of_succ_nat k)
            + 1 * length_ (screenshots p)) by lia.
    apply Z.mod_add. lia.
Qed.

(** X1: with the current index in [0, N-1], "next" undoes "previous":
    running [handlePrevImage] and then [handleNextImage] gives back the
    starting state. *)
Theorem next_inverts_prev (p : Project) (s : State) :
  validIndex (length_ (screenshots p)) s ->
  nextImageIndex p (prevImageIndex p (currentImageIndex s)) = currentImageIndex s
  /\ exists s1,
       exec (handlePrevImage (Some p)) s = inr s1
       /\ exec (handleNextImage (Some p)) s1 = inr s.
Proof.
  intros Hs. split.
  - apply next_prev_index. exact Hs.
  - eexists. split; [apply exec_handlePrevImage |].
    rewrite exec_handleNextImage. cbn [withIndex currentImageIndex].
    rewrite next_prev_index by exact Hs.
    destruct s; reflexivity.
Qed.

Lemma next_inverts_prev_witness :
  nextImageIndex galleryOf3 (prevImageIndex galleryOf3 0) = 0
  /\ exists s1,
       exec (handlePrevImage (Some galleryOf3)) (atIndex 0) = inr s1
       /\ exec (handleNextImage (Some galleryOf3)) s1 = inr (atIndex 0).
Proof.
  apply (next_inverts_prev galleryOf3 (atIndex 0)).
  unfold validIndex; simpl; lia.
Defined.

(** X2: with the current index in [0, N-1], N presses of "previous" bring
    the state back to where it started, and no smaller positive number of
    presses does. *)
Theorem prev_N_times_returns (p : Project) (s : State) :
  validIndex (length_ (screenshots p)) s ->
  repeat_exec (List.length (screenshots p)) (handlePrevImage (Some p)) s = inr s
  /\ forall k : nat,
       (0 < k < List.length (screenshots p))%nat ->
       repeat_exec k (handlePrevImage (Some p)) s <> inr s.
Proof.
  intros Hs. pose proof Hs as Hi. unfold validIndex in Hi. split.
  - rewrite repeat_prev by exact Hs. fold (length_ (screenshots p)).
    replace (currentImageIndex s - length_ (screenshots p))
      with (currentImageIndex s + (-1) * length_ (screenshots p)) by lia.
    rewrite Z.mod_add by lia. rewrite Z.mod_small by lia.
    now rewrite withIndex_same.
  - intros k Hk. rewrite repeat_prev by exact Hs. intros Heq.
    assert (Hidx : (currentImageIndex s - Z.of_nat k) mod length_ (screenshots p)
                   = currentImageIndex s).
    { injection Heq as Heq. apply (f_equal currentImageIndex) in Heq. exact Heq. }
    unfold length_ in *.
    destruct (Z_le_dec 0 (currentImageIndex s - Z.of_nat k)) as [Hge | Hlt].
    + rewrite Z.mod_small in Hidx by lia. lia.
    + replace (currentImageIndex s - Z.of_nat k)
        with (currentImageIndex s - Z.of_nat k
              + Z.of_nat (List.length (screenshots p))
              + (-1) * Z.of_nat (List.length (screenshots p))) in Hidx by lia.
      rewrite Z.mod_add in Hidx by lia.
      rewrite Z.mod_small in Hidx by lia. lia.
Qed.

Lemma prev_N_times_returns_witness :
  repeat_exec 3 (handlePrevImage (Some galleryOf3)) (atIndex 1) = inr (atIndex 1)
  /\ forall k : nat,
       (0 < k < 3)%nat ->
       repeat_exec k (handlePrevImage (Some galleryOf3)) (atIndex 1) <> inr (atIndex 1).
Proof.
  apply (prev_N_times_returns galleryOf3 (atIndex 1)).
  unfold validIndex; simpl; lia.
Defined.

(** X3: with the current index in [0, N-1], any number [k] of presses of
    "next" followed by as many presses of "previous" gives back the starting
    state, however many times the index wrapped on the way. *)
Theorem next_k_then_prev_k (p : Project) (s : State) (k : nat) :
  validIndex (length_ (screenshots p)) s ->
  exists s1,
    repeat_exec k (handleNextImage (Some p)) s = inr s1
    /\ repeat_exec k (handlePrevImage (Some p)) s1 = inr s.
Proof.
  intros Hs. pose proof Hs as Hi. unfold validIndex in Hi.
  eexists. split; [apply repeat_next; exact Hs |].
  rewrite repeat_prev.
  - cbn [withIndex currentImageIndex showImageViewer touchStartX].
    rewrite Zminus_mod_idemp_l.
    replace (currentImageIndex s + Z.of_nat k - Z.of_nat k)
      with (currentImageIndex s) by lia.
    rewrite (Z.mod_small (currentImageIndex s)) by lia.
    destruct s; reflexivity.
  - unfold validIndex. cbn [withIndex currentImageIndex].
    pose proof (Z.mod_pos_bound (currentImageIndex s + Z.of_nat k)
                  (length_ (screenshots p))). lia.
Qed.

Lemma next_k_then_prev_k_witness :
  exists s1,
    repeat_exec 7 (handleNextImage (Some galleryOf3)) (atIndex 2) = inr s1
    /\ repeat_exec 7 (handlePrevImage (Some galleryOf3)) s1 = inr (atIndex 2).
Proof.
  apply (next_k_then_prev_k galleryOf3 (atIndex 2) 7).
  unfold validIndex; simpl; lia.
Defined.

(** ** The keyboard *)

Lemma navigated_touchStartX project s s' :
  navigated project s s' -> touchStartX s' = touchStartX s.
Proof. intros [| p _ | p _]; reflexivity. Qed.

Lemma navigated_total project s (h : Handler unit) :
  h = handleNextImage project \/ h = handlePrevImage project \/ h = ret tt ->
  exists s', exec h s = inr s' /\ navigated project s s'.
Proof.
  intros [-> | [-> | ->]].
  - destruct (exec_navigation_total project s (handleNextImage project)) as [i Hi];
      [now left |].
    eexists. split; [exact Hi |]. now apply exec_handleNextImage_navigated.
  - destruct (exec_navigation_total project s (handlePrevImage project)) as [i Hi];
      [right; now left |].
    eexists. split; [exact Hi |]. now apply exec_handlePrevImage_navigated.
  - exists s. split; [reflexivity | apply nav_stay].
Qed.

(** X4: of all keys only the two arrows do anything: any other key leaves
    the state as it is, "ArrowLeft" is "previous" and "ArrowRight" is
    "next", whether or not the carousel is rendered; and no key at all opens
    or closes the viewer or touches the tracked swipe. *)
Theorem keys_only_arrows_navigate (project : option Project) (s : State)
    (key : string) :
  (key <> "ArrowLeft"%string -> key <> "ArrowRight"%string ->
     dispatch project s (KeyDown key) = inr s)
  /\ dispatch project s (KeyDown "ArrowLeft") = exec (handlePrevImage project) s
  /\ dispatch project s (KeyDown "ArrowRight") = exec (handleNextImage project) s
  /\ exists s',
       dispatch project s (KeyDown key) = inr s'
       /\ showImageViewer s' = showImageViewer s
       /\ touchStartX s' = touchStartX s.
Proof.
  split; [| split; [reflexivity | split; [reflexivity |]]].
  - intros Hleft Hright. unfold dispatch, listener, handleKeyDown.
    destruct (String.eqb_spec key "ArrowLeft"); [contradiction |].
    destruct (String.eqb_spec key "ArrowRight"); [contradiction |].
    reflexivity.
  - unfold dispatch, listener.
    destruct (navigated_total project s (handleKeyDown project key))
      as (s' & Hexec & Hnav).
    { unfold handleKeyDown.
      destruct (key =? "ArrowLeft")%string; [right; now left |].
      destruct (key =? "ArrowRight")%string; [now left | right; now right]. }
    exists s'. split; [exact Hexec |]. split.
    + now apply navigated_showImageViewer in Hnav.
    + now apply navigated_touchStartX in Hnav.
Qed.

Lemma keys_only_arrows_navigate_witness :
  dispatch (Some galleryOf3) (withShow (atIndex 1) true) (KeyDown "Escape")
  = inr (withShow (atIndex 1) true).
Proof.
  apply (keys_only_arrows_navigate (Some galleryOf3) (withShow (atIndex 1) true)
           "Escape"); discriminate.
Defined.

(** ** Touch sequences *)

Lemma dispatch_TouchStart p s e x rest :
  touches e = {| clientX := x |} :: rest ->
  dispatch (Some p) s (TouchStart e) = inr (withTouch s (Some x)).
Proof.
  intros He. unfold dispatch, listener, render, handleTouchStart.
  rewrite He. reflexivity.
Qed.

Lemma dispatch_TouchEnd_tracking p s e startX x rest :
  touchStartX s = Some startX ->
  changedTouches e = {| clientX := x |} :: rest ->
  dispatch (Some p) s (TouchEnd e)
  = inr (withTouch
           (withIndex s
              (if startX - x >? 50 then nextImageIndex p (currentImageIndex s)
               else if startX - x <? -50 then prevImageIndex p (currentImageIndex s)
               else currentImageIndex s))
           None).
Proof.
  intros Hs He. unfold dispatch, listener, render.
  rewrite (exec_handleTouchEnd_tracking (Some p) s s e startX _ rest Hs He).
  cbn [clientX].
  destruct (startX - x >? 50); [reflexivity |].
  destruct (startX - x <? -50); [reflexivity |].
  rewrite withIndex_same. reflexivity.
Qed.

Lemma dispatch_TouchEnd_idle project s e :
  touchStartX s = None -> dispatch project s (TouchEnd e) = inr s.
Proof.
  intros Hs. unfold dispatch, listener, render.
  destruct project as [p |]; [| reflexivity].
  rewrite (exec_handleTouchEnd_idle (Some p) s s e Hs).
  rewrite <- Hs. now rewrite withTouch_same.
Qed.

(** X5: a touch start only records the coordinate of its first touch, and
    a second touch start with no touch end in between replaces the
    coordinate of the first: the pair leaves the state the second alone
    would leave. *)
Theorem touch_start_overwrites (p : Project) (s : State) (e1 e2 : TouchEvent)
    (x1 x2 : Z) (rest1 rest2 : list Touch) :
  touches e1 = {| clientX := x1 |} :: rest1 ->
  touches e2 = {| clientX := x2 |} :: rest2 ->
  run_events (Some p) [TouchStart e1; TouchStart e2] s = inr (withTouch s (Some x2))
  /\ run_events (Some p) [TouchStart e2] s = inr (withTouch s (Some x2)).
Proof.
  intros H1 H2. cbn [run_events].
  rewrite (dispatch_TouchStart p s e1 x1 rest1 H1).
  rewrite (dispatch_TouchStart p _ e2 x2 rest2 H2).
  rewrite (dispatch_TouchStart p s e2 x2 rest2 H2).
  split; reflexivity.
Qed.

Lemma touch_start_overwrites_witness :
  run_events (Some galleryOf3)
    [TouchStart {| touches := [{| clientX := 10 |}]; changedTouches := [] |};
     TouchStart {| touches := [{| clientX := 300 |}]; changedTouches := [] |}]
    (atIndex 1)
  = inr (withTouch (atIndex 1) (Some 300))
  /\ run_events (Some galleryOf3)
       [TouchStart {| touches := [{| clientX := 300 |}]; changedTouches := [] |}]
       (atIndex 1)
     = inr (withTouch (atIndex 1) (Some 300)).
Proof.
  apply (touch_start_overwrites galleryOf3 (atIndex 1)
           {| touches := [{| clientX := 10 |}]; changedTouches := [] |}
           {| touches := [{| clientX := 300 |}]; changedTouches := [] |}
           10 300 [] []); reflexivity.
Defined.



(** ** Runs of events *)

Lemma dispatch_ClickImage_empty p s :
  length_ (screenshots p) <= 0 -> dispatch (Some p) s ClickImage = inr s.
Proof.
  intros Hn. unfold dispatch, listener, render, carouselOf.
  now rewrite renderCarousel_none.
Qed.

Lemma dispatch_not_found s ev : dispatch None s ev = inr s.
Proof.
  destruct ev as [key | e | e | | | | position | | |]; try reflexivity.
  unfold dispatch, listener, handleKeyDown.
  destruct (key =? "ArrowLeft")%string; [reflexivity |].
  destruct (key =? "ArrowRight")%string; reflexivity.
Qed.

(** Every event the browser can deliver completes. *)
Lemma dispatch_total project s ev :
  wellFormed ev = true -> exists s', dispatch project s ev = inr s'.
Proof.
  destruct project as [p |]; [| intros _; exists s; apply dispatch_not_found].
  destruct ev as [key | e | e | | | | position | | |]; cbn [wellFormed]; intros Hwf.
  - destruct (navigated_total (Some p) s (handleKeyDown (Some p) key))
      as (s' & Hexec & _); [| now exists s'].
    unfold handleKeyDown.
    destruct (key =? "ArrowLeft")%string; [right; now left |].
    destruct (key =? "ArrowRight")%string; [now left | right; now right].
  - destruct (touches e) as [| [x] rest] eqn:He; [discriminate |].
    eexists. apply (dispatch_TouchStart p s e x rest He).
  - destruct (changedTouches e) as [| [x] rest] eqn:He; [discriminate |].
    destruct (touchStartX s) as [startX |] eqn:Hs.
    + eexists. apply (dispatch_TouchEnd_tracking p s e startX x rest Hs He).
    + exists s. now apply dispatch_TouchEnd_idle.
  - destruct (Z_lt_le_dec 0 (length_ (screenshots p))) as [Hn | Hn].
    + eexists. now apply dispatch_ClickImage.
    + exists s. now apply dispatch_ClickImage_empty.
  - unfold dispatch, listener, render, carouselOf.
    destruct (renderCarousel (Some p) p s) as [c |] eqn:Hc; [| now exists s].
    unfold renderCarousel in Hc.
    destruct (length_ (screenshots p) >? 0); [| discriminate].
    injection Hc as <-. eexists. apply exec_handlePrevImage.
  - unfold dispatch, listener, render, carouselOf.
    destruct (renderCarousel (Some p) p s) as [c |] eqn:Hc; [| now exists s].
    unfold renderCarousel in Hc.
    destruct (length_ (screenshots p) >? 0); [| discriminate].
    injection Hc as <-. eexists. apply exec_handleNextImage.
  - rewrite dispatch_ClickIndicator.
    destruct (position <? List.length (screenshots p))%nat; eexists; reflexivity.
  - eexists. reflexivity.
  - eexists. reflexivity.
  - eexists. reflexivity.
Qed.

(** X7: no sequence of events the browser can deliver raises a fault,
    whatever the project and the starting state: the run always ends in a
    state. *)
Theorem well_formed_events_never_fault (project : option Project)
    (evs : list Event) (s : State) :
  forallb wellFormed evs = true ->
  exists s', run_events project evs s = inr s'.
Proof.
  revert s. induction evs as [| ev rest IH]; intros s Hwf.
  - now exists s.
  - cbn [forallb] in Hwf. apply andb_prop in Hwf as [Hev Hrest].
    cbn [run_events].
    destruct (dispatch_total project s ev Hev) as [s1 ->].
    now apply IH.
Qed.

Lemma well_formed_events_never_fault_witness :
  exists s',
    run_events (Some emptyGallery)
      [KeyDown "ArrowRight"; TouchEnd (touchEndAt 5); ClickIndicator 4; ViewerPrev]
      (tracking 90)
    = inr s'.
Proof.
  apply (well_formed_events_never_fault (Some emptyGallery)
           [KeyDown "ArrowRight"; TouchEnd (touchEndAt 5); ClickIndicator 4; ViewerPrev]
           (tracking 90)).
  reflexivity.
Defined.

Lemma index_valid_some {A : Type} (a : list A) (i : Z) :
  0 <= i <= length_ a - 1 -> exists x, index_ a i = Some x.
Proof.
  intros Hi. unfold index_, length_ in *.
  destruct (Z.ltb_spec i 0); [lia |].
  destruct (nth_error a (Z.to_nat i)) as [x |] eqn:Hx; [now exists x |].
  apply nth_error_None in Hx. lia.
Qed.

Lemma dispatch_validIndex p s ev s' :
  validIndex (length_ (screenshots p)) s ->
  dispatch (Some p) s ev = inr s' ->
  validIndex (length_ (screenshots p)) s'.
Proof.
  intros Hs Hev. apply dispatch_cases in Hev.
  destruct ev as [key | e | e | | | | position | | |];
    try (now apply (navigated_validIndex p s)).
  - destruct Hev as [-> | [x ->]]; exact Hs.
  - destruct Hev as [-> | (s0 & Hnav & ->)]; [exact Hs |].
    apply (navigated_validIndex p s s0 Hs Hnav).
  - destruct Hev as [-> | ->]; exact Hs.
  - destruct Hev as [-> | (q & [= <-] & Hpos & ->)]; [exact Hs |].
    unfold validIndex, length_. cbn [withIndex currentImageIndex]. lia.
  - destruct Hev as [-> | ->]; exact Hs.
Qed.

Lemma run_events_validIndex p evs : forall s s',
  validIndex (length_ (screenshots p)) s ->
  run_events (Some p) evs s = inr s' ->
  validIndex (length_ (screenshots p)) s'.
Proof.
  induction evs as [| ev rest IH]; intros s s' Hs Hrun; cbn [run_events] in Hrun.
  - injection Hrun as <-. exact Hs.
  - destruct (dispatch (Some p) s ev) as [err | s1] eqn:Hev; [discriminate |].
    apply (IH s1 s'); [| exact Hrun].
    apply (dispatch_validIndex p s ev s1 Hs Hev).
Qed.

(** X8: when the project has at least one screenshot, every state reached
    from the initial one by any run of events has its index in [0, N-1],
    and the inline carousel and the viewer props designate the same image,
    which exists: the page never shows a missing screenshot. *)
Theorem reachable_states_show_an_image (p : Project) (evs : list Event)
    (s' : State) :
  0 < length_ (screenshots p) ->
  run_events (Some p) evs initialState = inr s' ->
  validIndex (length_ (screenshots p)) s'
  /\ exists src, inlineImage p s' = Some src /\ viewerImage p s' = Some src.
Proof.
  intros Hn Hrun.
  assert (Hs' : validIndex (length_ (screenshots p)) s').
  { apply (run_events_validIndex p evs initialState s'); [| exact Hrun].
    unfold validIndex. cbn. lia. }
  split; [exact Hs' |].
  destruct (index_valid_some (screenshots p) (currentImageIndex s') Hs') as [src Hsrc].
  exists src. rewrite inlineImage_index by exact Hn. rewrite viewerImage_index.
  now split.
Qed.

Lemma reachable_states_show_an_image_witness :
  validIndex 3 (atIndex 2)
  /\ exists src, inlineImage galleryOf3 (atIndex 2) = Some src
                 /\ viewerImage galleryOf3 (atIndex 2) = Some src.
Proof.
  apply (reachable_states_show_an_image galleryOf3
           [KeyDown "ArrowLeft"; ClickNext; ClickIndicator 1; ViewerNext]
           (atIndex 2)); reflexivity.
Defined.

(** X9: when no project matches the route, the page renders "Project not
    found" and no run of events, well formed or not, changes the state or
    raises a fault: only the key listener is registered, and it does
    nothing. *)
Theorem project_not_found_is_inert (evs : list Event) (s : State) :
  render None s = ProjectNotFound
  /\ run_events None evs s = inr s.
Proof.
  split; [reflexivity |].
  induction evs as [| ev rest IH]; [reflexivity |].
  cbn [run_events]. now rewrite dispatch_not_found.
Qed.

(** X10: a project without screenshots never opens the viewer: the carousel
    is not rendered, and from a state with the viewer closed every run of
    events ends with the viewer closed. *)
Theorem empty_gallery_never_opens (p : Project) (evs : list Event) (s s' : State) :
  length_ (screenshots p) = 0 ->
  showImageViewer s = false ->
  run_events (Some p) evs s = inr s' ->
  showImageViewer s' = false
  /\ renderCarousel (Some p) p s' = None.
Proof.
  intros Hn Hs Hrun. split; [| apply renderCarousel_none; lia].
  revert s Hs Hrun. induction evs as [| ev rest IH]; intros s Hs Hrun;
    cbn [run_events] in Hrun.
  - injection Hrun as <-. exact Hs.
  - destruct (dispatch (Some p) s ev) as [err | s1] eqn:Hev; [discriminate |].
    apply (IH s1); [| exact Hrun].
    destruct ev as [key | e | e | | | | position | | |];
      try (apply dispatch_cases in Hev; cbn beta iota in Hev;
           apply navigated_showImageViewer in Hev; congruence).
    + apply dispatch_cases in Hev. destruct Hev as [-> | [x ->]]; exact Hs.
    + apply dispatch_cases in Hev.
      destruct Hev as [-> | (s0 & Hnav & ->)]; [exact Hs |].
      apply navigated_showImageViewer in Hnav. cbn. congruence.
    + rewrite dispatch_ClickImage_empty in Hev by lia. congruence.
    + apply dispatch_cases in Hev.
      destruct Hev as [-> | (q & _ & _ & ->)]; exact Hs.
    + apply dispatch_cases in Hev. destruct Hev as [-> | ->]; [exact Hs | reflexivity].
Qed.

Lemma empty_gallery_never_opens_witness :
  showImageViewer (atIndex 1) = false
  /\ renderCarousel (Some emptyGallery) emptyGallery (atIndex 1) = None.
Proof.
  apply (empty_gallery_never_opens emptyGallery [ClickImage; KeyDown "ArrowRight"]
           initialState (atIndex 1)); reflexivity.
Defined.

(** ** Who changes what *)

(** X11: the viewer is closed only by its own close request: an event that
    finds the viewer open and leaves it closed is [ViewerClose], and it
    changed nothing else; navigation by keys, buttons, swipes or indicators
    keeps an open viewer open. *)
Theorem only_close_closes (project : option Project) (s : State) (ev : Event)
    (s' : State) :
  dispatch project s ev = inr s' ->
  showImageViewer s = true ->
  showImageViewer s' = false ->
  ev = ViewerClose
  /\ s' = withShow s false.
Proof.
  intros Hev Hopen Hclosed. apply dispatch_cases in Hev.
  destruct ev as [key | e | e | | | | position | | |];
    try (apply navigated_showImageViewer in Hev; congruence).
  - destruct Hev as [-> | [x ->]]; cbn in Hclosed; congruence.
  - destruct Hev as [-> | (s0 & Hnav & ->)]; [congruence |].
    apply navigated_showImageViewer in Hnav. cbn in Hclosed. congruence.
  - destruct Hev as [-> | ->]; cbn in Hclosed; congruence.
  - destruct Hev as [-> | (q & _ & _ & ->)]; cbn in Hclosed; congruence.
  - destruct Hev as [-> | ->]; [congruence | now split].
Qed.

Lemma only_close_closes_witness :
  ViewerClose = ViewerClose
  /\ atIndex 1 = withShow (withShow (atIndex 1) true) false.
Proof.
  apply (only_close_closes (Some galleryOf3) (withShow (atIndex 1) true)
           ViewerClose (atIndex 1)); reflexivity.
Defined.

(** X12: with exactly one screenshot and the index on it, no event moves
    the index: "next", "previous", swipes, arrow keys and the single
    indicator all leave it at 0. *)
Theorem single_image_never_moves (p : Project) (s : State) (ev : Event)
    (s' : State) :
  length_ (screenshots p) = 1 ->
  currentImageIndex s = 0 ->
  dispatch (Some p) s ev = inr s' ->
  currentImageIndex s' = 0.
Proof.
  intros Hn Hs Hev.
  assert (Hvalid : validIndex (length_ (screenshots p)) s').
  { apply (dispatch_validIndex p s ev s'); [| exact Hev].
    unfold validIndex. lia. }
  unfold validIndex in Hvalid. lia.
Qed.

Lemma single_image_never_moves_witness :
  currentImageIndex (atIndex 0) = 0.
Proof.
  apply (single_image_never_moves {| name := "One"; screenshots := ["a.png"%string] |}
           (atIndex 0) ClickNext (atIndex 0)); reflexivity.
Defined.

(** ** The indicators *)

Lemma filter_eqb_seq (i : Z) (len start : nat) :
  List.length (filter (fun k => k =? i) (map Z.of_nat (seq start len)))
  = if (Z.of_nat start <=? i) && (i <? Z.of_nat (start + len)) then 1%nat else 0%nat.
Proof.
  revert start. induction len as [| len IH]; intros start.
  - cbn [seq map filter List.length].
    destruct (Z.leb_spec (Z.of_nat start) i); destruct (Z.ltb_spec i (Z.of_nat (start + 0)));
      cbn [andb]; try reflexivity; lia.
  - cbn [seq map filter]. destruct (Z.eqb_spec (Z.of_nat start) i) as [Heq | Hne].
    + cbn [List.length]. rewrite IH.
      destruct (Z.leb_spec (Z.of_nat (S start)) i); [lia |].
      destruct (Z.leb_spec (Z.of_nat start) i); [| lia].
      destruct (Z.ltb_spec i (Z.of_nat (start + S len))); [reflexivity | lia].
    + rewrite IH.
      destruct (Z.leb_spec (Z.of_nat (S start)) i);
        destruct (Z.leb_spec (Z.of_nat start) i);
        destruct (Z.ltb_spec i (Z.of_nat (S start + len)));
        destruct (Z.ltb_spec i (Z.of_nat (start + S len)));
        cbn [andb]; try reflexivity; lia.
Qed.

(** X13: the rendered carousel has one indicator per screenshot, keyed
    0, 1, ..., N-1 in order; the indicator at position [k] is active exactly
    when [k] is the current index, so exactly one indicator is active when
    the index is in [0, N-1] and none is otherwise. *)
Theorem indicators_mark_current (project : option Project) (p : Project)
    (r : State) (c : Carousel) :
  renderCarousel project p r = Some c ->
  List.length (indicators c) = List.length (screenshots p)
  /\ map indicatorKey (indicators c) = indices (screenshots p)
  /\ (forall k ind,
        nth_error (indicators c) k = Some ind ->
        indicatorKey ind = Z.of_nat k
        /\ indicatorActive ind = (Z.of_nat k =? currentImageIndex r))
  /\ List.length (filter indicatorActive (indicators c))
     = if (0 <=? currentImageIndex r)
          && (currentImageIndex r <? length_ (screenshots p))
       then 1%nat else 0%nat.
Proof.
  unfold renderCarousel.
  destruct (length_ (screenshots p) >? 0); [| discriminate].
  intros [= <-]. cbn [indicators].
  split; [| split; [| split]].
  - unfold indices. now rewrite !length_map, length_seq.
  - rewrite map_map. cbn [indicatorKey]. apply map_id.
  - intros k ind. rewrite nth_error_map, nth_error_indices.
    destruct (k <? List.length (screenshots p))%nat; [| discriminate].
    intros [= <-]. split; reflexivity.
  - pose proof (filter_eqb_seq (currentImageIndex r) (List.length (screenshots p)) 0)
      as Hcount.
    cbn [Nat.add Z.of_nat] in Hcount. unfold length_. rewrite <- Hcount.
    unfold indices.
    generalize (map Z.of_nat (seq 0 (List.length (screenshots p)))).
    intros l. induction l as [| k l IH]; [reflexivity |].
    cbn [map filter indicatorActive].
    destruct (k =? currentImageIndex r); cbn [List.length]; now rewrite IH.
Qed.

Lemma indicators_mark_current_witness :
  exists c,
    renderCarousel (Some galleryOf3) galleryOf3 (atIndex 1) = Some c
    /\ List.length (indicators c) = 3%nat
    /\ map indicatorKey (indicators c) = [0; 1; 2]
    /\ List.length (filter indicatorActive (indicators c)) = 1%nat.
Proof.
  destruct (renderCarousel (Some galleryOf3) galleryOf3 (atIndex 1)) as [c |] eqn:Hc;
    [| discriminate].
  destruct (indicators_mark_current (Some galleryOf3) galleryOf3 (atIndex 1) c Hc)
    as (Hlen & Hkeys & _ & Hactive).
  exists c. split; [reflexivity |]. split; [exact Hlen |].
  split; [exact Hkeys | exact Hactive].
Defined.

(** X14: a click on the indicator at position [k] makes the [k]-th
    screenshot the one the inline carousel and the viewer props designate,
    makes that indicator the active one, and leaves the viewer flag and the
    tracked swipe as they were. *)
Theorem indicator_click_shows_image (p : Project) (s : State) (k : nat) :
  (k < List.length (screenshots p))%nat ->
  exists s',
    dispatch (Some p) s (ClickIndicator k) = inr s'
    /\ inlineImage p s' = nth_error (screenshots p) k
    /\ viewerImage p s' = nth_error (screenshots p) k
    /\ (exists c ind,
          renderCarousel (Some p) p s' = Some c
          /\ nth_error (indicators c) k = Some ind
          /\ indicatorActive ind = true)
    /\ showImageViewer s' = showImageViewer s
    /\ touchStartX s' = touchStartX s.
Proof.
  intros Hk. exists (withIndex s (Z.of_nat k)).
  assert (Hn : 0 < length_ (screenshots p)) by (unfold length_; lia).
  assert (Hidx : index_ (screenshots p) (Z.of_nat k) = nth_error (screenshots p) k).
  { unfold index_. destruct (Z.ltb_spec (Z.of_nat k) 0); [lia |].
    now rewrite Nat2Z.id. }
  split.
  { rewrite dispatch_ClickIndicator.
    destruct (Nat.ltb_spec k (List.length (screenshots p))); [reflexivity | lia]. }
  split; [rewrite inlineImage_index by exact Hn; exact Hidx |].
  split; [rewrite viewerImage_index; exact Hidx |].
  split; [| split; reflexivity].
  unfold renderCarousel.
  destruct (Z.gtb_spec (length_ (screenshots p)) 0); [| lia].
  eexists. eexists. split; [reflexivity |]. cbn [indicators].
  rewrite nth_error_map, nth_error_indices.
  destruct (Nat.ltb_spec k (List.length (screenshots p))); [| lia].
  cbn [option_map]. split; [reflexivity |].
  cbn [indicatorActive withIndex currentImageIndex]. apply Z.eqb_refl.
Qed.

Lemma indicator_click_shows_image_witness :
  exists s',
    dispatch (Some galleryOf3) initialState (ClickIndicator 2) = inr s'
    /\ inlineImage galleryOf3 s' = Some "c.png"%string
    /\ viewerImage galleryOf3 s' = Some "c.png"%string.
Proof.
  destruct (indicator_click_shows_image galleryOf3 initialState 2)
    as (s' & Hclick & Hinline & Hviewer & _).
  { simpl. lia. }
  exists s'. split; [exact Hclick |]. split; [exact Hinline | exact Hviewer].
Defined.

(** ** The hidden index of an empty gallery *)

Lemma repeat_next_empty p k : forall i,
  length_ (screenshots p) = 0 ->
  0 <= i ->
  i + Z.of_nat k <= MAX_SAFE_INTEGER ->
  repeat_exec k (handleNextImage (Some p)) (atIndex i) = inr (atIndex (i + Z.of_nat k)).
Proof.
  induction k as [| k IH]; intros i Hn Hi Hsafe.
  - cbn [repeat_exec]. now rewrite Z.add_0_r.
  - cbn [repeat_exec]. rewrite exec_handleNextImage.
    replace (withIndex (atIndex i) (nextImageIndex p (currentImageIndex (atIndex i))))
      with (atIndex (i + 1)).
    2: { unfold nextImageIndex, withIndex, atIndex.
         cbn [currentImageIndex showImageViewer touchStartX]. rewrite Hn.
         destruct (Z.eqb_spec i (0 - 1)); [lia | reflexivity]. }
    rewrite IH by lia. do 2 f_equal. lia.
Qed.

Lemma repeat_prev_empty p k : forall i,
  length_ (screenshots p) = 0 ->
  i <= 0 ->
  - MAX_SAFE_INTEGER <= i - Z.of_nat k ->
  repeat_exec k (handlePrevImage (Some p)) (atIndex i) = inr (atIndex (i - Z.of_nat k)).
Proof.
  induction k as [| k IH]; intros i Hn Hi Hsafe.
  - cbn [repeat_exec]. now rewrite Z.sub_0_r.
  - cbn [repeat_exec]. rewrite exec_handlePrevImage.
    replace (withIndex (atIndex i) (prevImageIndex p (currentImageIndex (atIndex i))))
      with (atIndex (i - 1)).
    2: { unfold prevImageIndex, withIndex, atIndex.
         cbn [currentImageIndex showImageViewer touchStartX]. rewrite Hn.
         destruct (Z.eqb_spec i 0) as [-> | Hne]; reflexivity. }
    rewrite IH by lia. do 2 f_equal. lia.
Qed.

(** X22: with an empty screenshot list the stored index does not stay in
    a range of valid indices and does not wrap round: from the initial
    state, [k] presses of "next" leave it at [k] and [k] presses of
    "previous" leave it at [-k], for every [k] that is a safe integer. *)
Theorem empty_gallery_index_drifts (p : Project) (k : nat) :
  length_ (screenshots p) = 0 ->
  isSafeInteger (Z.of_nat k) ->
  repeat_exec k (handleNextImage (Some p)) initialState = inr (atIndex (Z.of_nat k))
  /\ repeat_exec k (handlePrevImage (Some p)) initialState
     = inr (atIndex (- Z.of_nat k)).
Proof.
  intros Hn [_ Hk]. change initialState with (atIndex 0). split.
  - now rewrite repeat_next_empty by (try exact Hn; lia).
  - rewrite repeat_prev_empty by (try exact Hn; lia). reflexivity.
Qed.

Lemma empty_gallery_index_drifts_witness :
  repeat_exec 5 (handleNextImage (Some emptyGallery)) initialState = inr (atIndex 5)
  /\ repeat_exec 5 (handlePrevImage (Some emptyGallery)) initialState
     = inr (atIndex (-5)).
Proof.
  apply (empty_gallery_index_drifts emptyGallery 5).
  - reflexivity.
  - unfold isSafeInteger, MAX_SAFE_INTEGER; simpl; lia.
Defined.

(** ** The project of the route *)

Lemma isWhiteSpace_toLowerCaseChar c :
  isWhiteSpace (toLowerCaseChar c) = isWhiteSpace c.
Proof. destruct c as [[] [] [] [] [] [] [] []]; vm_compute; reflexivity. Qed.

Lemma isUpperCase_toLowerCaseChar c : isUpperCase (toLowerCaseChar c) = false.
Proof. destruct c as [[] [] [] [] [] [] [] []]; vm_compute; reflexivity. Qed.

Lemma toLowerCaseChar_fixed c : isUpperCase c = false -> toLowerCaseChar c = c.
Proof. unfold toLowerCaseChar. now intros ->. Qed.

Lemma toLowerCase_fixed s : existsChar isUpperCase s = false -> toLowerCase s = s.
Proof.
  induction s as [| c rest IH]; [reflexivity |].
  cbn [existsChar toLowerCase]. intros H. apply orb_false_elim in H as [Hc Hrest].
  now rewrite toLowerCaseChar_fixed, IH.
Qed.

Lemma toLowerCase_no_upper s : existsChar isUpperCase (toLowerCase s) = false.
Proof.
  induction s as [| c rest IH]; [reflexivity |].
  cbn [toLowerCase existsChar]. now rewrite isUpperCase_toLowerCaseChar, IH.
Qed.

Lemma replaceWhiteSpace_fixed s : forall inRun,
  existsChar isWhiteSpace s = false -> replaceWhiteSpace inRun s = s.
Proof.
  induction s as [| c rest IH]; intros inRun; [reflexivity |].
  cbn [existsChar replaceWhiteSpace]. intros H.
  apply orb_false_elim in H as [Hc Hrest].
  rewrite Hc. now rewrite IH.
Qed.

Lemma replaceWhiteSpace_no_space s : forall inRun,
  existsChar isWhiteSpace (replaceWhiteSpace inRun s) = false.
Proof.
  induction s as [| c rest IH]; intros inRun; [reflexivity |].
  cbn [replaceWhiteSpace]. destruct (isWhiteSpace c) eqn:Hc.
  - destruct inRun; [apply IH |]. cbn [existsChar]. now rewrite IH.
  - cbn [existsChar]. now rewrite Hc, IH.
Qed.

Lemma replaceWhiteSpace_no_upper s : forall inRun,
  existsChar isUpperCase s = false ->
  existsChar isUpperCase (replaceWhiteSpace inRun s) = false.
Proof.
  induction s as [| c rest IH]; intros inRun; [reflexivity |].
  cbn [existsChar replaceWhiteSpace]. intros H.
  apply orb_false_elim in H as [Hc Hrest].
  destruct (isWhiteSpace c).
  - destruct inRun; [now apply IH |]. cbn [existsChar]. now rewrite IH.
  - cbn [existsChar]. now rewrite Hc, IH.
Qed.

(** X15: the identifier computed from a project name contains no white
    space and no capital letter, whatever the name. *)
Theorem slug_is_clean (n : string) :
  existsChar isWhiteSpace (slug n) = false
  /\ existsChar isUpperCase (slug n) = false.
Proof.
  unfold slug. split.
  - apply replaceWhiteSpace_no_space.
  - apply replaceWhiteSpace_no_upper, toLowerCase_no_upper.
Qed.

(** X16: the strings the computation leaves unchanged are exactly those
    with no white space and no capital letter; so it is idempotent: the
    identifier of an identifier is that identifier. *)
Theorem slug_fixed_points (id : string) :
  (slug id = id <->
   existsChar isWhiteSpace id = false /\ existsChar isUpperCase id = false)
  /\ slug (slug id) = slug id.
Proof.
  assert (Hfix : forall s,
            existsChar isWhiteSpace s = false /\ existsChar isUpperCase s = false ->
            slug s = s).
  { intros s [Hspace Hupper]. unfold slug.
    rewrite toLowerCase_fixed by exact Hupper.
    now apply replaceWhiteSpace_fixed. }
  assert (Hclean : forall s,
            existsChar isWhiteSpace (slug s) = false
            /\ existsChar isUpperCase (slug s) = false).
  { intros s. unfold slug. split.
    - apply replaceWhiteSpace_no_space.
    - apply replaceWhiteSpace_no_upper, toLowerCase_no_upper. }
  split; [split |].
  - intros <-. apply Hclean.
  - apply Hfix.
  - apply Hfix, Hclean.
Qed.

Lemma findProject_some_iff projects id p :
  findProject projects (Some id) = Some p <->
  exists before after,
    projects = before ++ p :: after
    /\ slug (name p) = id
    /\ forall q, In q before -> slug (name q) <> id.
Proof.
  unfold findProject. induction projects as [| x rest IH]; cbn [find].
  - split; [discriminate |]. intros (before & after & Heq & _).
    destruct before; discriminate.
  - destruct (String.eqb_spec (slug (name x)) id) as [Hx | Hx].
    + split.
      * intros [= <-]. exists [], rest. repeat split; [exact Hx |]. intros q [].
      * intros (before & after & Heq & Hp & Hbefore).
        destruct before as [| y before]; cbn in Heq; injection Heq as <- Heq.
        -- reflexivity.
        -- exfalso. apply (Hbefore x); [now left | exact Hx].
    + rewrite IH. split.
      * intros (before & after & -> & Hp & Hbefore).
        exists (x :: before), after. repeat split; [exact Hp |].
        intros q [<- | Hq]; [exact Hx | now apply Hbefore].
      * intros (before & after & Heq & Hp & Hbefore).
        destruct before as [| y before]; cbn in Heq; injection Heq as <- Heq.
        -- contradiction.
        -- exists before, after. repeat split; [exact Heq | exact Hp |].
           intros q Hq. apply Hbefore. now right.
Qed.

Lemma findProject_none_iff projects projectId :
  findProject projects projectId = None <->
  forall p, In p projects -> Some (slug (name p)) <> projectId.
Proof.
  unfold findProject. induction projects as [| x rest IH]; cbn [find].
  - split; [intros _ p [] | reflexivity].
  - destruct projectId as [id |].
    + destruct (String.eqb_spec (slug (name x)) id) as [Hx | Hx].
      * split; [discriminate |]. intros H. exfalso.
        apply (H x); [now left | now rewrite Hx].
      * rewrite IH. split.
        -- intros H p [<- | Hp]; [congruence | now apply H].
        -- intros H p Hp. apply H. now right.
    + rewrite IH. split; intros _ p _; discriminate.
Qed.

(** X17: the project of the route is the first project of the list whose
    identifier is the route parameter: the lookup returns [p] exactly when
    the list splits into projects with other identifiers, then [p], then
    the rest; a later project with the same identifier is never returned. *)
Theorem findProject_first_match (projects : list Project) (id : string)
    (p : Project) :
  findProject projects (Some id) = Some p <->
  exists before after,
    projects = before ++ p :: after
    /\ slug (name p) = id
    /\ forall q, In q before -> slug (name q) <> id.
Proof. apply findProject_some_iff. Qed.

(** X18: the page renders "Project not found" exactly when no project of
    the list has the route parameter as its identifier; in particular when
    the route has no parameter at all. *)
Theorem project_not_found_iff (projects : list Project)
    (projectId : option string) (s : State) :
  (render (findProject projects projectId) s = ProjectNotFound <->
   forall p, In p projects -> Some (slug (name p)) <> projectId)
  /\ render (findProject projects None) s = ProjectNotFound.
Proof.
  assert (Hrender : forall project,
            render project s = ProjectNotFound <-> project = None).
  { intros [q |]; cbn [render]; split; try discriminate; reflexivity. }
  split.
  - rewrite Hrender. apply findProject_none_iff.
  - apply Hrender, findProject_none_iff. intros p _. discriminate.
Qed.

(** X19: a route parameter that contains white space or a capital letter
    matches no project, whatever the list: the project name itself, typed
    as it is displayed, does not reach the page unless it is already in
    identifier form. *)
Theorem unslugged_id_matches_nothing (projects : list Project) (id : string) :
  existsChar isWhiteSpace id = true \/ existsChar isUpperCase id = true ->
  findProject projects (Some id) = None.
Proof.
  intros Hid. apply findProject_none_iff. intros p _ [= Hp].
  assert (Hspace : existsChar isWhiteSpace (slug (name p)) = false).
  { unfold slug. apply replaceWhiteSpace_no_space. }
  assert (Hupper : existsChar isUpperCase (slug (name p)) = false).
  { unfold slug. apply replaceWhiteSpace_no_upper, toLowerCase_no_upper. }
  rewrite Hp in Hspace, Hupper. destruct Hid; congruence.
Qed.

Lemma unslugged_id_matches_nothing_witness :
  findProject [{| name := "My Project"; screenshots := [] |}]
              (Some "My Project"%string) = None.
Proof.
  apply (unslugged_id_matches_nothing
           [{| name := "My Project"; screenshots := [] |}] "My Project").
  left. reflexivity.
Defined.

(** X20: every project of the list is reached by its own identifier when
    no earlier project shares it; in any case the identifier of a listed
    project finds some project with that same identifier, never "Project not
    found". *)
Theorem own_slug_finds_project (before after : list Project) (p : Project) :
  (exists q, findProject (before ++ p :: after) (Some (slug (name p))) = Some q
             /\ slug (name q) = slug (name p))
  /\ ((forall q, In q before -> slug (name q) <> slug (name p)) ->
      findProject (before ++ p :: after) (Some (slug (name p))) = Some p).
Proof.
  split.
  - destruct (findProject (before ++ p :: after) (Some (slug (name p))))
      as [q |] eqn:Hfind.
    + exists q. split; [reflexivity |].
      apply findProject_some_iff in Hfind as (b & a & _ & Hq & _). exact Hq.
    + exfalso.
      apply (proj1 (findProject_none_iff _ _) Hfind p); [| reflexivity].
      apply in_or_app. right. now left.
  - intros Hbefore. apply findProject_some_iff.
    exists before, after. repeat split. exact Hbefore.
Qed.

Lemma own_slug_finds_project_witness :
  findProject [galleryOf3; {| name := "My  Project"; screenshots := [] |}]
              (Some "my-project"%string)
  = Some {| name := "My  Project"; screenshots := [] |}.
Proof.
  apply (own_slug_finds_project [galleryOf3] []
           {| name := "My  Project"; screenshots := [] |}).
  intros q [<- | []]. discriminate.
Defined.

(** ** The navigation bar *)

Lemma navbar_run_events_app evs1 evs2 s :
  Navbar.run_events (evs1 ++ evs2) s
  = Navbar.run_events evs2 (Navbar.run_events evs1 s).
Proof. unfold Navbar.run_events. apply fold_left_app. Qed.

Lemma navbar_toggles k : forall s,
  Navbar.run_events (repeat Navbar.ClickHamburger k) s = xorb s (Nat.odd k).
Proof.
  induction k as [| k IH]; intros s.
  - cbn. now rewrite xorb_false_r.
  - cbn [repeat]. unfold Navbar.run_events in *. cbn [fold_left]. rewrite IH.
    rewrite Nat.odd_succ, <- Nat.negb_odd.
    destruct s, (Nat.odd k); reflexivity.
Qed.

(** X21: the menu is open exactly when the hamburger button was clicked an
    odd number of times since the last click on a menu link (or since the
    start, from the state it had then): a link always closes the menu,
    whatever happened before, and each button click flips it. *)
Theorem navbar_menu_parity (evs : list Navbar.Event) (to : Navbar.Route)
    (k : nat) (s : Navbar.State) :
  Navbar.run_events (evs ++ Navbar.ClickLink to :: repeat Navbar.ClickHamburger k) s
  = Nat.odd k
  /\ Navbar.run_events (repeat Navbar.ClickHamburger k) s = xorb s (Nat.odd k)
  /\ Navbar.run_events (repeat Navbar.ClickHamburger k) Navbar.initialState
     = Nat.odd k.
Proof.
  split; [| split].
  - rewrite navbar_run_events_app.
    change (Navbar.ClickLink to :: repeat Navbar.ClickHamburger k)
      with ([Navbar.ClickLink to] ++ repeat Navbar.ClickHamburger k).
    rewrite navbar_run_events_app, navbar_toggles. reflexivity.
  - apply navbar_toggles.
  - rewrite navbar_toggles. reflexivity.
Qed.
